(** * Storefront category page: slug resolver and product view pipeline

    A shallow embedding of [app/(public)/main-category/[slug]/page.tsx]
    (the server component [MainCategoryPageServer] and the client component
    [ShopAllProducts]) together with the properties stated about them.

    Conventions of the embedding.
    - A JavaScript string is a list of code units; the development covers
      code units below 256 (Latin-1), which is what [ascii] holds.
    - A JavaScript number is an integer of [Z]: amounts in the smallest
      currency unit, instants in milliseconds, indices and page numbers.
      The code only compares numbers and takes the sign of differences.
      Where a number may fail to be one it is a [num], an integer or [NaN];
      the integer that [parseInt] reads is the number it returns up to
      2^53, beyond which the number is the nearest double.
    - A price field is a [jsvalue]: absent, a number, or a string known by
      what [Number] reads from it. A field only tested for presence
      ([x?.f], [f || d]) is an [option]; [None] stands for a falsy field.
    - [Date.now()] is read by every call of a price rule. A price rule takes
      the instant it reads; the callbacks of [filter] and [map] take the
      index of the call and the comparator of [sort] the number of the
      call, and a [Clock] tells the instant of each call.
    - [Array.prototype.sort] is left to the engine, as the language leaves
      it: an [Engine] is any sort that keeps the language's contract.
    - Arrays are immutable lists in the functional model; the last part of
      the definitions runs the pipeline over a store of mutable arrays. *)

From Stdlib Require Import ZArith Ascii String Bool List Lia Permutation.
Import ListNotations.
Open Scope Z_scope.

Set Warnings "-register-all".

(* ================================================================== *)
(** * JavaScript built-ins used by the page                            *)
(* ================================================================== *)

Module JS.

Definition jsstring := list ascii.

Definition str (s : string) : jsstring := list_ascii_of_string s.

Definition code (c : ascii) : N := N_of_ascii c.

Definition between (lo hi : N) (c : ascii) : bool :=
  ((lo <=? code c) && (code c <=? hi))%N.

(** [===] on strings. *)
Fixpoint streqb (a b : jsstring) : bool :=
  match a, b with
  | [], [] => true
  | x :: a', y :: b' => Ascii.eqb x y && streqb a' b'
  | _, _ => false
  end.

(** [String.prototype.toLowerCase] on Latin-1 code units: A-Z and the
    accented capitals U+00C0..U+00DE (U+00D7, the multiplication sign, has
    no case) move up by 32. *)
Definition lower_unit (c : ascii) : ascii :=
  if between 65 90 c || (between 192 222 c && negb (code c =? 215)%N)
  then ascii_of_N (code c + 32)
  else c.

Definition toLowerCase (s : jsstring) : jsstring := map lower_unit s.

(** The regular-expression classes of [createSlug]; [\s] is also the set
    removed by [trim] and skipped by [parseInt]. *)
Definition isSpace (c : ascii) : bool :=
  between 9 13 c || (code c =? 32)%N || (code c =? 160)%N.

Definition isWord (c : ascii) : bool :=
  between 97 122 c || between 65 90 c || between 48 57 c || (code c =? 95)%N.

Definition isHyphen (c : ascii) : bool := (code c =? 45)%N.

Definition notWordOrHyphen (c : ascii) : bool := negb (isWord c || isHyphen c).

(** [s.replace(/[p]+/g, r)]: every maximal run of characters of class [p]
    becomes one copy of [r]. [inRun] says the previous character belonged
    to the run being replaced. *)
Fixpoint replaceRuns (p : ascii -> bool) (r : jsstring) (inRun : bool)
    (s : jsstring) : jsstring :=
  match s with
  | [] => []
  | c :: t =>
      if p c then
        if inRun then replaceRuns p r true t
        else r ++ replaceRuns p r true t
      else c :: replaceRuns p r false t
  end.

(** [s.replace(/pp+/g, r)]: every maximal run of at least two characters of
    class [p] becomes one copy of [r]; a lone one is kept. *)
Fixpoint replaceRuns2 (p : ascii -> bool) (r : jsstring) (inRun : bool)
    (s : jsstring) : jsstring :=
  match s with
  | [] => []
  | c :: t =>
      if p c then
        if inRun then replaceRuns2 p r true t
        else
          match t with
          | d :: _ =>
              if p d then r ++ replaceRuns2 p r true t
              else c :: replaceRuns2 p r false t
          | [] => [c]
          end
      else c :: replaceRuns2 p r false t
  end.

(** [s.replace(/^[p]+/, "")] and [s.replace(/[p]+$/, "")]. *)
Fixpoint dropWhile (p : ascii -> bool) (s : jsstring) : jsstring :=
  match s with
  | [] => []
  | c :: t => if p c then dropWhile p t else s
  end.

Definition dropWhileEnd (p : ascii -> bool) (s : jsstring) : jsstring :=
  rev (dropWhile p (rev s)).

(** [String.prototype.trim]. *)
Definition trim (s : jsstring) : jsstring :=
  dropWhileEnd isSpace (dropWhile isSpace s).

(** [String.prototype.includes]. *)
Fixpoint startsWith (s q : jsstring) {struct q} : bool :=
  match q, s with
  | [], _ => true
  | _ :: _, [] => false
  | y :: q', x :: s' => Ascii.eqb x y && startsWith s' q'
  end.

Fixpoint includes (s q : jsstring) : bool :=
  startsWith s q ||
  match s with
  | [] => false
  | _ :: t => includes t q
  end.

(** [Array.prototype.join]: [undefined] elements print as the empty
    string. *)
Definition orEmpty (o : option jsstring) : jsstring :=
  match o with Some s => s | None => [] end.

Fixpoint join (sep : jsstring) (l : list (option jsstring)) : jsstring :=
  match l with
  | [] => []
  | [x] => orEmpty x
  | x :: t => orEmpty x ++ sep ++ join sep t
  end.

(** [Array.prototype.includes] on an array of strings. *)
Definition arrIncludes (l : list jsstring) (x : jsstring) : bool :=
  existsb (streqb x) l.

(** [Array.prototype.slice (start, end)] with the relative-index rules. *)
Definition slice {A : Type} (l : list A) (start end_ : Z) : list A :=
  let len := Z.of_nat (length l) in
  let k := if start <? 0 then Z.max (len + start) 0 else Z.min start len in
  let final := if end_ <? 0 then Z.max (len + end_) 0 else Z.min end_ len in
  firstn (Z.to_nat (final - k)) (skipn (Z.to_nat k) l).

(** [Math.ceil (n / d)] for integers [n] and a positive [d]. *)
Definition ceilDiv (n d : Z) : Z := - ((- n) / d).

(** A number that may be [NaN]. Every comparison with [NaN] is false and
    every difference with [NaN] is [NaN]. *)
Inductive num : Type :=
| Fin (z : Z)
| NaN.

Definition num_ltb (a b : num) : bool :=
  match a, b with
  | Fin x, Fin y => x <? y
  | _, _ => false
  end.

Definition num_gtb (a b : num) : bool := num_ltb b a.

Definition num_leb (a b : num) : bool :=
  match a, b with
  | Fin x, Fin y => x <=? y
  | _, _ => false
  end.

Definition num_geb (a b : num) : bool := num_leb b a.

Definition num_sub (a b : num) : num :=
  match a, b with
  | Fin x, Fin y => Fin (x - y)
  | _, _ => NaN
  end.

(** The value of a field that the code reads as a number: absent
    ([undefined] or [null]), a number, the empty string, or a non-empty
    string, which is known here by the number [Number] reads from it
    ([Text (Fin 80)] for "80", [Text NaN] for "abc"). *)
Inductive jsvalue : Type :=
| Undefined
| Number (n : num)
| Text (reads : num)
| EmptyText.

Definition ToBoolean (v : jsvalue) : bool :=
  match v with
  | Undefined => false
  | Number (Fin z) => negb (z =? 0)
  | Number NaN => false
  | Text _ => true
  | EmptyText => false
  end.

(** [Number (v)] for a value that is not absent. *)
Definition ToNumber (v : jsvalue) : num :=
  match v with
  | Undefined => NaN
  | Number n => n
  | Text reads => reads
  | EmptyText => Fin 0
  end.

(** [Number (v || d)] for a number [d]. *)
Definition numberOr (v : jsvalue) (d : num) : num :=
  if ToBoolean v then ToNumber v else d.

(** [Array.prototype.filter] and [map]: the callback is called on the
    elements in order, with the element and its index; [i] is the index of
    the first element of [l]. *)
Fixpoint arrayFilter {A : Type} (f : nat -> A -> bool) (i : nat) (l : list A)
    : list A :=
  match l with
  | [] => []
  | x :: t => if f i x then x :: arrayFilter f (S i) t else arrayFilter f (S i) t
  end.

Fixpoint arrayMap {A B : Type} (f : nat -> A -> B) (i : nat) (l : list A)
    : list B :=
  match l with
  | [] => []
  | x :: t => f i x :: arrayMap f (S i) t
  end.

(** [Array.prototype.sort (comparefn)] reads what [comparefn] returns as a
    number and takes [NaN] for [+0]. *)
Definition sortCompare (v : num) : Z :=
  match v with
  | Fin z => z
  | NaN => 0
  end.

(** An order that compares consistently on the elements of [l]; the sort
    only promises an order for such a comparator. *)
Definition consistentOn {A : Type} (order : A -> A -> Z) (l : list A) : Prop :=
  (forall a b, In a l -> In b l ->
     Z.sgn (order b a) = - Z.sgn (order a b)) /\
  (forall a b c, In a l -> In b l -> In c l ->
     order a b <= 0 -> order b c <= 0 -> order a c <= 0).

(** Adjacent elements are in order. *)
Fixpoint ordered {A : Type} (order : A -> A -> Z) (l : list A) : Prop :=
  match l with
  | [] => True
  | x :: t =>
      match t with
      | [] => True
      | y :: _ => order x y <= 0 /\ ordered order t
      end
  end.

(** What the language promises of [Array.prototype.sort]. The algorithm and
    the sequence of its calls to [comparefn] are the engine's; [comparefn]
    is given the number of the call, so that a comparator that reads the
    clock is a function. The result is always a rearrangement of the
    array. When [comparefn] answers every call on elements of the array by
    one and the same consistent [order], the result is in that order and
    elements that compare equal keep their places relative to each other;
    for any other [comparefn] the order of the result is the engine's. *)
Class Engine : Type := {
  arraySort : forall A : Type, (nat -> A -> A -> num) -> list A -> list A;
  arraySort_permutes :
    forall (A : Type) (comparefn : nat -> A -> A -> num) (l : list A),
      Permutation l (arraySort A comparefn l);
  arraySort_sorts :
    forall (A : Type) (comparefn : nat -> A -> A -> num)
           (order : A -> A -> Z) (l : list A),
      (forall k a b, In a l -> In b l ->
         sortCompare (comparefn k a b) = order a b) ->
      consistentOn order l ->
      ordered order (arraySort A comparefn l) /\
      (forall x, In x l ->
         filter (fun y => order x y =? 0) (arraySort A comparefn l)
         = filter (fun y => order x y =? 0) l)
}.

Arguments arraySort {Engine} {A} comparefn l.

(** One such sort: binary insertion, as engines use for short arrays. Each
    element in turn is put into the part already sorted, at the place a
    binary search finds; [k] counts the calls to [comparefn]. *)
Fixpoint binarySearch {A : Type} (fuel : nat) (comparefn : nat -> A -> A -> num)
    (pivot : A) (sorted : list A) (left right k : nat) : nat * nat :=
  match fuel with
  | O => (left, k)
  | S fuel' =>
      if (left <? right)%nat then
        let mid := (left + (right - left) / 2)%nat in
        match nth_error sorted mid with
        | Some e =>
            if sortCompare (comparefn k pivot e) <? 0
            then binarySearch fuel' comparefn pivot sorted left mid (S k)
            else binarySearch fuel' comparefn pivot sorted (S mid) right (S k)
        | None => (left, k)
        end
      else (left, k)
  end.

Definition binaryInsert {A : Type} (comparefn : nat -> A -> A -> num)
    (pivot : A) (sorted : list A) (k : nat) : list A * nat :=
  let '(place, k') :=
    binarySearch (length sorted) comparefn pivot sorted 0 (length sorted) k in
  (firstn place sorted ++ pivot :: skipn place sorted, k').

Fixpoint binaryInsertionSort {A : Type} (comparefn : nat -> A -> A -> num)
    (sorted rest : list A) (k : nat) : list A :=
  match rest with
  | [] => sorted
  | x :: t =>
      let '(sorted', k') := binaryInsert comparefn x sorted k in
      binaryInsertionSort comparefn sorted' t k'
  end.

Definition binarySort {A : Type} (comparefn : nat -> A -> A -> num)
    (l : list A) : list A :=
  binaryInsertionSort comparefn [] l 0.

(** [parseInt (s)] without a radix. [None] is [NaN]. *)
Definition digitValue (c : ascii) : option Z :=
  if between 48 57 c then Some (Z.of_N (code c) - 48)
  else if between 97 122 c then Some (Z.of_N (code c) - 87)
  else if between 65 90 c then Some (Z.of_N (code c) - 55)
  else None.

Fixpoint digitsPrefix (radix : Z) (acc : option Z) (s : jsstring) : option Z :=
  match s with
  | [] => acc
  | c :: t =>
      match digitValue c with
      | Some d =>
          if d <? radix
          then digitsPrefix radix
                 (Some (match acc with Some a => a | None => 0 end * radix + d)) t
          else acc
      | None => acc
      end
  end.

Definition parseInt (input : jsstring) : option Z :=
  let s := dropWhile isSpace input in
  let '(sign, s) :=
    match s with
    | c :: t =>
        if (code c =? 45)%N then (-1, t)
        else if (code c =? 43)%N then (1, t)
        else (1, s)
    | [] => (1, s)
    end in
  let '(radix, s) :=
    match s with
    | z :: x :: t =>
        if (code z =? 48)%N && ((code x =? 120)%N || (code x =? 88)%N)
        then (16, t) else (10, s)
    | _ => (10, s)
    end in
  match digitsPrefix radix None s with
  | Some n => Some (sign * n)
  | None => None
  end.

End JS.

Import JS.

(* ================================================================== *)
(** * Data model                                                       *)
(* ================================================================== *)

(** [Category] of [@/types/business]: an identifier, a display name and an
    optional array of sub-categories. *)
Inductive Category : Type :=
  mkCategory (cat_id : jsstring) (cat_name : jsstring)
             (children : option (list Category)).

Definition cat_id (c : Category) : jsstring :=
  match c with mkCategory i _ _ => i end.

Definition cat_name (c : Category) : jsstring :=
  match c with mkCategory _ n _ => n end.

Definition children (c : Category) : option (list Category) :=
  match c with mkCategory _ _ ch => ch end.

(* ================================================================== *)
(** * Server component: slug resolver and pagination seeds             *)
(* ================================================================== *)

(** [createSlug], line by line. *)
Definition createSlug (name : jsstring) : jsstring :=
  let s := toLowerCase name in
  let s := replaceRuns isSpace (str "-") false s in
  let s := replaceRuns notWordOrHyphen (str "") false s in
  let s := replaceRuns2 isHyphen (str "-") false s in
  let s := dropWhile isHyphen s in
  dropWhileEnd isHyphen s.

(** [business.categories.find (cat => createSlug (cat.name) ===
    params.slug.toLowerCase ())]. *)
Definition findMainCategory (slug : jsstring) (categories : list Category)
    : option Category :=
  find (fun cat => streqb (createSlug (cat_name cat)) (toLowerCase slug))
       categories.

(** [mainCategory] as the server component computes it: [null] when the
    business or its category list is absent. *)
Definition mainCategory (slug : jsstring)
    (business : option (option (list Category))) : option Category :=
  match business with
  | Some (Some categories) => findMainCategory slug categories
  | _ => None
  end.

(** The resolver as the specification words it: both sides normalised. *)
Definition resolve_as_specified (slug : jsstring) (categories : list Category)
    : option Category :=
  find (fun cat => streqb (createSlug (cat_name cat)) (createSlug slug))
       categories.

(** [searchParams?.page]: [string | string[] | undefined]. *)
Inductive QueryValue : Type :=
| QMissing
| QString (s : jsstring)
| QArray (l : list jsstring).

(** The string [parseInt] reads: [undefined] prints as its name, an array
    as its elements joined by commas. *)
Definition queryText (q : QueryValue) : jsstring :=
  match q with
  | QMissing => str "undefined"
  | QString s => s
  | QArray l => join (str ",") (map Some l)
  end.

(** [parseInt (q) || d]: [NaN] and [0] are falsy. *)
Definition parseIntOr (d : Z) (q : QueryValue) : Z :=
  match parseInt (queryText q) with
  | Some n => if n =? 0 then d else n
  | None => d
  end.

Definition page (q : QueryValue) : Z := parseIntOr 1 q.
Definition limit (q : QueryValue) : Z := parseIntOr 20 q.

(* ================================================================== *)
(** * Client component: products and view state                        *)
(* ================================================================== *)

(** [Product] of [@/types/product], as far as the component reads it. *)
Record CategoryTag : Type := {
  tag_id : jsstring;
  tag_name : option jsstring
}.

(** A variant. The price fields are read as [Number (f || fallback)], a
    falsy field (absent, empty, the number 0) giving way to the fallback.
    The two dates are read as [f ? new Date (f).getTime () : 0]: [None] is
    a falsy field, [Some t] a field whose time value is [t], which is [NaN]
    when the field is not a date. *)
Record Variant : Type := {
  variants_stock : Z;
  selling_price : jsvalue;
  offer_price : jsvalue;
  discount_start_date : option num;
  discount_end_date : option num;
  variants_values : option (list jsstring);
  condition : option jsstring
}.

Record Product : Type := {
  prod_id : option jsstring;
  prod_name : option jsstring;
  category_group : option (list CategoryTag);
  variantsId : option (list Variant)
}.

Inductive SortKey : Type := SortName | PriceLow | PriceHigh | Newest.

Record ViewState : Type := {
  sortBy : SortKey;
  selectedCats : list jsstring;
  selectedSizes : list jsstring;
  searchQuery : jsstring;
  currentPage : Z;
  priceRange : Z * Z
}.

Definition itemsPerPage : Z := 20.

(** [getAllDescendantIds]: the loop appends each child's expansion. *)
Fixpoint getAllDescendantIds (cat : Category) : list jsstring :=
  match cat with
  | mkCategory i _ ch =>
      let ids := [i] in
      match ch with
      | Some ((_ :: _) as cs) =>
          fold_left (fun ids child => ids ++ getAllDescendantIds child) cs ids
      | _ => ids
      end
  end.

(** [initialSelectedCats]: nothing for a missing or empty [category]
    parameter; only the top-level categories are searched. *)
Definition initialSelectedCats (initialCategoryId : option jsstring)
    (categories : list Category) : list jsstring :=
  match initialCategoryId with
  | None => []
  | Some [] => []
  | Some wanted =>
      match find (fun cat => streqb (cat_id cat) wanted) categories with
      | Some category => getAllDescendantIds category
      | None => []
      end
  end.

(** ** Parameter mutators

    The state cells of [useState] live in [ViewState]; a setter runs its
    updater, which may itself call other setters, and stores the result. *)
Definition M (A : Type) : Type := ViewState -> A * ViewState.

Definition ret {A : Type} (a : A) : M A := fun s => (a, s).

Definition bind {A B : Type} (m : M A) (k : A -> M B) : M B :=
  fun s => let '(a, s1) := m s in k a s1.

Notation "m ;; k" := (bind m (fun _ => k))
  (at level 61, right associativity).

Definition exec {A : Type} (m : M A) (s : ViewState) : ViewState := snd (m s).

(** [React.SetStateAction]: a new value or a function of the previous one. *)
Inductive SetStateAction (A : Type) : Type :=
| Value (a : A)
| Update (f : A -> A).

Arguments Value {A} a.
Arguments Update {A} f.

Definition setCurrentPage (p : Z) : M unit := fun s =>
  (tt, {| sortBy := sortBy s; selectedCats := selectedCats s;
          selectedSizes := selectedSizes s; searchQuery := searchQuery s;
          currentPage := p; priceRange := priceRange s |}).

Definition setSortBy (u : SortKey -> M SortKey) : M unit := fun s =>
  let '(r, s1) := u (sortBy s) s in
  (tt, {| sortBy := r; selectedCats := selectedCats s1;
          selectedSizes := selectedSizes s1; searchQuery := searchQuery s1;
          currentPage := currentPage s1; priceRange := priceRange s1 |}).

Definition setSearchQuery (u : jsstring -> M jsstring) : M unit := fun s =>
  let '(r, s1) := u (searchQuery s) s in
  (tt, {| sortBy := sortBy s1; selectedCats := selectedCats s1;
          selectedSizes := selectedSizes s1; searchQuery := r;
          currentPage := currentPage s1; priceRange := priceRange s1 |}).

Definition setSelectedCats (u : list jsstring -> M (list jsstring)) : M unit :=
  fun s =>
  let '(r, s1) := u (selectedCats s) s in
  (tt, {| sortBy := sortBy s1; selectedCats := r;
          selectedSizes := selectedSizes s1; searchQuery := searchQuery s1;
          currentPage := currentPage s1; priceRange := priceRange s1 |}).

Definition setSelectedSizes (u : list jsstring -> M (list jsstring)) : M unit :=
  fun s =>
  let '(r, s1) := u (selectedSizes s) s in
  (tt, {| sortBy := sortBy s1; selectedCats := selectedCats s1;
          selectedSizes := r; searchQuery := searchQuery s1;
          currentPage := currentPage s1; priceRange := priceRange s1 |}).

Definition setPriceRange (u : Z * Z -> M (Z * Z)) : M unit := fun s =>
  let '(r, s1) := u (priceRange s) s in
  (tt, {| sortBy := sortBy s1; selectedCats := selectedCats s1;
          selectedSizes := selectedSizes s1; searchQuery := searchQuery s1;
          currentPage := currentPage s1; priceRange := r |}).

Definition handleSortChange (newSortBy : SetStateAction SortKey) : M unit :=
  match newSortBy with
  | Update f =>
      setSortBy (fun prev =>
        let result := f prev in
        setCurrentPage 1 ;; ret result)
  | Value v =>
      setSortBy (fun _ => ret v) ;;
      setCurrentPage 1
  end.

Definition handleSearchChange (newSearchQuery : SetStateAction jsstring)
    : M unit :=
  match newSearchQuery with
  | Update f =>
      setSearchQuery (fun prev =>
        let result := f prev in
        setCurrentPage 1 ;; ret result)
  | Value v =>
      setSearchQuery (fun _ => ret v) ;;
      setCurrentPage 1
  end.

Definition handleCategoryChange
    (newSelectedCats : SetStateAction (list jsstring)) : M unit :=
  match newSelectedCats with
  | Update f =>
      setSelectedCats (fun prev =>
        let result := f prev in
        setCurrentPage 1 ;; ret result)
  | Value v =>
      setSelectedCats (fun _ => ret v) ;;
      setCurrentPage 1
  end.

Definition handleSizeChange
    (newSelectedSizes : SetStateAction (list jsstring)) : M unit :=
  match newSelectedSizes with
  | Update f =>
      setSelectedSizes (fun prev =>
        let result := f prev in
        setCurrentPage 1 ;; ret result)
  | Value v =>
      setSelectedSizes (fun _ => ret v) ;;
      setCurrentPage 1
  end.

Definition handlePriceRangeChange (newPriceRange : SetStateAction (Z * Z))
    : M unit :=
  match newPriceRange with
  | Update f =>
      setPriceRange (fun prev =>
        let result := f prev in
        setCurrentPage 1 ;; ret result)
  | Value v =>
      setPriceRange (fun _ => ret v) ;;
      setCurrentPage 1
  end.

(** The mutators handed to the header and the filter panel. *)
Inductive Mutator : Type :=
| MSort (a : SetStateAction SortKey)
| MSearch (a : SetStateAction jsstring)
| MCategory (a : SetStateAction (list jsstring))
| MSize (a : SetStateAction (list jsstring))
| MPriceRange (a : SetStateAction (Z * Z)).

Definition mutate (m : Mutator) : M unit :=
  match m with
  | MSort a => handleSortChange a
  | MSearch a => handleSearchChange a
  | MCategory a => handleCategoryChange a
  | MSize a => handleSizeChange a
  | MPriceRange a => handlePriceRangeChange a
  end.

(** ** Effective price

    The component spells the rule out three times; each copy is embedded
    where it stands. [now] is what the copy's call of [Date.now ()]
    returns. *)

(** The callback of [initialProducts.map] under [minPrice]/[maxPrice]. *)
Definition boundPrice (now : Z) (p : Product) : num :=
  let v :=
    match variantsId p with
    | Some vs =>
        match find (fun x => variants_stock x >? 0) vs with
        | Some x => Some x
        | None => hd_error vs
        end
    | None => None
    end in
  match v with
  | None => Fin 0
  | Some v =>
      let sell := numberOr (selling_price v) (Fin 0) in
      let offer := numberOr (offer_price v) sell in
      let start :=
        match discount_start_date v with Some d => d | None => Fin 0 end in
      let end_ :=
        match discount_end_date v with Some d => d | None => Fin 0 end in
      let isOffer :=
        num_ltb offer sell && num_geb (Fin now) start
        && num_leb (Fin now) end_ in
      if isOffer then offer else sell
  end.

(** [price] inside the filter callback. *)
Definition price (now : Z) (product : Product) : num :=
  let v :=
    match variantsId product with
    | Some vs =>
        match find (fun x => variants_stock x >? 0) vs with
        | Some x => Some x
        | None => hd_error vs
        end
    | None => None
    end in
  match v with
  | None => Fin 0
  | Some v =>
      let sell := numberOr (selling_price v) (Fin 0) in
      let offer := numberOr (offer_price v) sell in
      let start :=
        match discount_start_date v with Some d => d | None => Fin 0 end in
      let end_ :=
        match discount_end_date v with Some d => d | None => Fin 0 end in
      let isOffer :=
        num_ltb offer sell && num_geb (Fin now) start
        && num_leb (Fin now) end_ in
      if isOffer then offer else sell
  end.

(** [getPrice] inside the sort comparator. *)
Definition getPrice (now : Z) (p : Product) : num :=
  let v :=
    match variantsId p with
    | Some vs =>
        match find (fun x => variants_stock x >? 0) vs with
        | Some x => Some x
        | None => hd_error vs
        end
    | None => None
    end in
  match v with
  | None => Fin 0
  | Some v =>
      let sell := numberOr (selling_price v) (Fin 0) in
      let offer := numberOr (offer_price v) sell in
      let start :=
        match discount_start_date v with Some d => d | None => Fin 0 end in
      let end_ :=
        match discount_end_date v with Some d => d | None => Fin 0 end in
      let isOffer :=
        num_ltb offer sell && num_geb (Fin now) start
        && num_leb (Fin now) end_ in
      if isOffer then offer else sell
  end.

(** [.filter ((n) => !Number.isNaN (n))]. *)
Fixpoint notNaN (l : list num) : list Z :=
  match l with
  | [] => []
  | Fin z :: t => z :: notNaN t
  | NaN :: t => notNaN t
  end.

(** [Math.min (...prices)] and [Math.max (...prices)] of a non-empty
    array. *)
Definition minOf (x : Z) (prices : list Z) : Z := fold_left Z.min prices x.
Definition maxOf (x : Z) (prices : list Z) : Z := fold_left Z.max prices x.

(** [minPrice]/[maxPrice]; [at_ i] is the instant at which the price of the
    product of index [i] is read. *)
Definition priceBounds (at_ : nat -> Z)
    (initialMinPrice initialMaxPrice : option Z)
    (initialProducts : list Product) : Z * Z :=
  match initialMinPrice, initialMaxPrice with
  | Some lo, Some hi => (lo, hi)
  | _, _ =>
      match initialProducts with
      | [] => (0, 10000)
      | _ :: _ =>
          let prices :=
            notNaN (arrayMap (fun i p => boundPrice (at_ i) p) 0
                             initialProducts) in
          (match prices with [] => 0 | x :: t => minOf x t end,
           match prices with [] => 10000 | x :: t => maxOf x t end)
      end
  end.

(** ** The filter callback *)

(** [searchIn]: lower-cased name, tag names and variant conditions, joined
    by single spaces. *)
Definition searchIn (product : Product) : jsstring :=
  join (str " ")
    (Some (match prod_name product with
           | Some n => toLowerCase n
           | None => str ""
           end)
     :: match category_group product with
        | Some cats => map (fun cat => option_map toLowerCase (tag_name cat)) cats
        | None => []
        end
     ++ match variantsId product with
        | Some vs => map (fun v => option_map toLowerCase (condition v)) vs
        | None => []
        end).

Definition prodCatIds (product : Product) : list jsstring :=
  map tag_id (match category_group product with Some g => g | None => [] end).

Definition prodSizes (product : Product) : list jsstring :=
  match variantsId product with
  | Some vs =>
      flat_map (fun v => match variants_values v with
                         | Some l => l
                         | None => []
                         end) vs
  | None => []
  end.

Definition nonEmpty {A : Type} (l : list A) : bool :=
  match l with [] => false | _ :: _ => true end.

Definition keep (now : Z) (V : ViewState) (product : Product) : bool :=
  let price := price now product in
  if num_ltb price (Fin (fst (priceRange V)))
     || num_gtb price (Fin (snd (priceRange V))) then false
  else if nonEmpty (trim (searchQuery V))
          && negb (includes (searchIn product) (toLowerCase (searchQuery V)))
  then false
  else if nonEmpty (selectedCats V)
          && negb (existsb (fun id => arrIncludes (selectedCats V) id)
                           (prodCatIds product))
  then false
  else if nonEmpty (selectedSizes V)
          && negb (existsb (fun sz => arrIncludes (selectedSizes V) sz)
                           (prodSizes product))
  then false
  else true.

(** ** The sort comparator

    [String.prototype.localeCompare] belongs to the host: a collation is
    any consistent comparison of strings. *)
Class Collator : Type := {
  localeCompare : jsstring -> jsstring -> Z;
  localeCompare_sym :
    forall a b, Z.sgn (localeCompare b a) = - Z.sgn (localeCompare a b);
  localeCompare_trans :
    forall a b c,
      localeCompare a b <= 0 -> localeCompare b c <= 0 -> localeCompare a c <= 0
}.

(** Comparison by code units, the collation of the examples. *)
Fixpoint ordinalCompare (a b : jsstring) : Z :=
  match a, b with
  | [], [] => 0
  | [], _ :: _ => -1
  | _ :: _, [] => 1
  | x :: a', y :: b' =>
      match (code x ?= code y)%N with
      | Lt => -1
      | Gt => 1
      | Eq => ordinalCompare a' b'
      end
  end.

(** The instants of one run of the pipeline: [atFilter i] is read by the
    filter callback on the product of index [i]; at the call number [k] of
    the comparator, the first component of [atCompare k] is read by the
    first call of [getPrice] and the second by the second. *)
Record Clock : Type := {
  atFilter : nat -> Z;
  atCompare : nat -> Z * Z
}.

(** The clock that reads [now] throughout. *)
Definition stopped (now : Z) : Clock :=
  {| atFilter := fun _ => now; atCompare := fun _ => (now, now) |}.

Section Pipeline.

Context {collator : Collator} {engine : Engine}.

(** The comparator; [instants] are those its two calls of [getPrice]
    read. *)
Definition compareProducts (instants : Z * Z) (sortBy : SortKey)
    (a b : Product) : num :=
  match sortBy with
  | SortName =>
      Fin (localeCompare (orEmpty (prod_name a)) (orEmpty (prod_name b)))
  | PriceLow =>
      num_sub (getPrice (fst instants) a) (getPrice (snd instants) b)
  | PriceHigh =>
      num_sub (getPrice (fst instants) b) (getPrice (snd instants) a)
  | Newest =>
      Fin (localeCompare (orEmpty (prod_id b)) (orEmpty (prod_id a)))
  end.

Record View : Type := {
  filteredAndSorted : list Product;
  paginatedProducts : list Product;
  totalPages : Z
}.

(** What the filter keeps, before it is sorted. *)
Definition kept (clock : Clock) (V : ViewState)
    (initialProducts : list Product) : list Product :=
  arrayFilter (fun i product => keep (atFilter clock i) V product) 0
              initialProducts.

(** The body of the [useMemo] that yields [filteredAndSorted],
    [paginatedProducts] and [totalPages]. *)
Definition pipeline (clock : Clock) (V : ViewState)
    (initialProducts : list Product) : View :=
  let filtered :=
    arraySort (fun k a b => compareProducts (atCompare clock k) (sortBy V) a b)
              (kept clock V initialProducts) in
  let totalPages := ceilDiv (Z.of_nat (length filtered)) itemsPerPage in
  let startIndex := (currentPage V - 1) * itemsPerPage in
  let endIndex := startIndex + itemsPerPage in
  let paginatedProducts := slice filtered startIndex endIndex in
  {| filteredAndSorted := filtered;
     paginatedProducts := paginatedProducts;
     totalPages := totalPages |}.

End Pipeline.

Arguments compareProducts {collator} instants sortBy a b.
Arguments pipeline {collator engine} clock V initialProducts.

(** ** The pipeline over mutable arrays

    [Array.prototype.filter] and [slice] allocate a new array, whereas
    [sort] reorders the array it is called on and returns that same
    reference. A store holds the arrays by allocation order. *)
Definition ref : Type := nat.

Definition Store : Type := list (list Product).

Definition deref (st : Store) (r : ref) : option (list Product) :=
  nth_error st r.

Definition alloc (a : list Product) (st : Store) : ref * Store :=
  (length st, st ++ [a]).

Fixpoint assign (r : ref) (a : list Product) (st : Store) : Store :=
  match st, r with
  | [], _ => []
  | _ :: t, O => a :: t
  | x :: t, S r' => x :: assign r' a t
  end.

(** A computation on the store; [None] is a dangling reference. *)
Definition Eff (A : Type) : Type := Store -> option (A * Store).

Definition pure {A : Type} (a : A) : Eff A := fun st => Some (a, st).

Definition andThen {A B : Type} (m : Eff A) (k : A -> Eff B) : Eff B :=
  fun st =>
    match m st with
    | Some (a, st1) => k a st1
    | None => None
    end.

Notation "'let*' x ':=' m 'in' k" := (andThen m (fun x => k))
  (at level 10, x name, m at level 100, k at level 200).

Definition arrFilter (f : nat -> Product -> bool) (r : ref) : Eff ref :=
  fun st =>
    match deref st r with
    | Some a => Some (alloc (arrayFilter f 0 a) st)
    | None => None
    end.

Definition arrSort {engine : Engine}
    (comparefn : nat -> Product -> Product -> num) (r : ref) : Eff ref :=
  fun st =>
    match deref st r with
    | Some a => Some (r, assign r (arraySort comparefn a) st)
    | None => None
    end.

Definition arrSlice (r : ref) (start end_ : Z) : Eff ref := fun st =>
  match deref st r with
  | Some a => Some (alloc (slice a start end_) st)
  | None => None
  end.

Definition arrLength (r : ref) : Eff Z := fun st =>
  match deref st r with
  | Some a => Some (Z.of_nat (length a), st)
  | None => None
  end.

Record ViewRefs : Type := {
  filteredRef : ref;
  paginatedRef : ref;
  pages : Z
}.

Definition pipelineOnStore {collator : Collator} {engine : Engine}
    (clock : Clock) (V : ViewState) (initialProducts : ref) : Eff ViewRefs :=
  let* kept :=
    arrFilter (fun i product => keep (atFilter clock i) V product)
              initialProducts in
  let* filtered :=
    arrSort (fun k a b => compareProducts (atCompare clock k) (sortBy V) a b)
            kept in
  let* len := arrLength filtered in
  let totalPages := ceilDiv len itemsPerPage in
  let startIndex := (currentPage V - 1) * itemsPerPage in
  let endIndex := startIndex + itemsPerPage in
  let* paginatedProducts := arrSlice filtered startIndex endIndex in
  pure {| filteredRef := filtered;
          paginatedRef := paginatedProducts;
          pages := totalPages |}.

(* ================================================================== *)
(** * Specification-side notions                                       *)
(* ================================================================== *)

Definition childrenOf (c : Category) : list Category :=
  match children c with Some cs => cs | None => [] end.

(** Number of nodes of a category tree. *)
Fixpoint nodes (c : Category) : nat :=
  match c with
  | mkCategory _ _ ch =>
      S (match ch with
         | Some cs => fold_right (fun child n => (nodes child + n)%nat) O cs
         | None => O
         end)
  end.

(** [Reaches c d]: [d] is [c] or lies below it along [children] edges. *)
Inductive Reaches : Category -> Category -> Prop :=
| reaches_self : forall c, Reaches c c
| reaches_child : forall c child d,
    In child (childrenOf c) -> Reaches child d -> Reaches c d.

(** Depth-first pre-order with an explicit stack of pending nodes: visit the
    top, then its children left to right, then what was pending. *)
Fixpoint preorder (fuel : nat) (pending : list Category) : list jsstring :=
  match fuel with
  | O => []
  | S fuel' =>
      match pending with
      | [] => []
      | c :: rest => cat_id c :: preorder fuel' (childrenOf c ++ rest)
      end
  end.

(** A decimal digit, as [parseInt] needs one to start an integer. *)
Definition isDecimalDigit (c : ascii) : bool := between 48 57 c.

(** Number of nodes of a list of category trees. *)
Fixpoint nodesOf (l : list Category) : nat :=
  match l with
  | [] => O
  | c :: t => (nodes c + nodesOf t)%nat
  end.

(** What a [SetStateAction] asks for, given the previous value. *)
Definition applyAction {A : Type} (a : SetStateAction A) (prev : A) : A :=
  match a with
  | Value v => v
  | Update f => f prev
  end.









(** A product reduced to the one variant [v], and a variant with the
    given prices and offer window. *)
Definition oneVariant (v : Variant) (p : Product) : Product :=
  {| prod_id := prod_id p; prod_name := prod_name p;
     category_group := category_group p; variantsId := Some [v] |}.

Definition offerVariant (sell offer t0 t1 : Z) (v : Variant) : Variant :=
  {| variants_stock := variants_stock v;
     selling_price := Number (Fin sell); offer_price := Number (Fin offer);
     discount_start_date := Some (Fin t0); discount_end_date := Some (Fin t1);
     variants_values := variants_values v; condition := condition v |}.

(** A substring occurrence. *)
Definition occursIn (q s : jsstring) : Prop :=
  exists before after, s = before ++ q ++ after.

(** The four clauses of the filter predicate. *)
Definition priceClause (now : Z) (V : ViewState) (p : Product) : Prop :=
  exists z, price now p = Fin z /\
            fst (priceRange V) <= z <= snd (priceRange V).

(** What the range test of the filter lets through at [now]: a price in
    the range, and a price that is not a number. *)
Definition pricePasses (now : Z) (V : ViewState) (p : Product) : Prop :=
  forall z, price now p = Fin z ->
            fst (priceRange V) <= z <= snd (priceRange V).

(** During the sort the prices of the products of [l] are numbers and do
    not change: every call of [getPrice] on a product reads the same
    number. *)
Definition settled (clock : Clock) (l : list Product) : Prop :=
  forall p, In p l ->
    exists z, forall k,
      getPrice (fst (atCompare clock k)) p = Fin z /\
      getPrice (snd (atCompare clock k)) p = Fin z.

(** The comparator of the key answers alike at every call: always under
    the two keys that compare strings, and under the price keys when the
    prices are settled. *)
Definition comparable (clock : Clock) (key : SortKey) (l : list Product)
    : Prop :=
  match key with
  | PriceLow | PriceHigh => settled clock l
  | SortName | Newest => True
  end.


(** A product with one variant in stock, known by its id and the value of
    its selling price field. *)
Definition sells (id : string) (selling : jsvalue) : Product :=
  {| prod_id := Some (str id); prod_name := None; category_group := None;
     variantsId := Some
       [{| variants_stock := 1; selling_price := selling;
           offer_price := Undefined;
           discount_start_date := None; discount_end_date := None;
           variants_values := None; condition := None |}] |}.

(** A view without search text or selection, on page 1. *)
Definition plainView (key : SortKey) (lo hi : Z) : ViewState :=
  {| sortBy := key; selectedCats := []; selectedSizes := [];
     searchQuery := []; currentPage := 1; priceRange := (lo, hi) |}.

(** The order a key puts on products whose prices are read at [now]. *)
Definition keyOrder {collator : Collator} (now : Z) (key : SortKey)
    (a b : Product) : Z :=
  sortCompare (compareProducts (now, now) key a b).

Definition searchClause (V : ViewState) (p : Product) : Prop :=
  searchQuery V <> [] ->
  occursIn (toLowerCase (trim (searchQuery V))) (searchIn p).

Definition categoryClause (V : ViewState) (p : Product) : Prop :=
  selectedCats V <> [] ->
  exists id, In id (prodCatIds p) /\ In id (selectedCats V).

Definition sizeClause (V : ViewState) (p : Product) : Prop :=
  selectedSizes V <> [] ->
  exists sz, In sz (prodSizes p) /\ In sz (selectedSizes V).

(* ================================================================== *)
(** * Further parts of the two components                              *)
(* ================================================================== *)

(** [Business] of [@/types/business], as far as the server component reads
    it, and [businessRes.data]: nothing, one business or an array. *)
Record Business : Type := {
  biz_categories : option (list Category)
}.

Inductive BusinessData : Type :=
| NoBusinessData
| OneBusiness (b : Business)
| ManyBusinesses (l : list Business).

(** [b.categories && b.categories.length > 0]. *)
Definition hasCategories (b : Business) : bool :=
  match biz_categories b with
  | Some (_ :: _) => true
  | _ => false
  end.

(** [business]: from an array, the first business with categories, else the
    first business, else [null]. *)
Definition selectBusiness (data : BusinessData) : option Business :=
  match data with
  | NoBusinessData => None
  | OneBusiness b => Some b
  | ManyBusinesses l =>
      match find hasCategories l with
      | Some b => Some b
      | None => hd_error l
      end
  end.

(** What the server component hands to [MainCategoryPage]. *)
Record ServerProps : Type := {
  props_business : option Business;
  props_mainCategory : option Category;
  props_mainCategoryId : option jsstring;
  props_page : Z;
  props_limit : Z
}.

Definition MainCategoryPageServer (slug : jsstring) (pageParam limitParam : QueryValue)
    (data : BusinessData) : ServerProps :=
  let business := selectBusiness data in
  let found := mainCategory slug (option_map biz_categories business) in
  {| props_business := business;
     props_mainCategory := found;
     props_mainCategoryId := option_map cat_id found;
     props_page := page pageParam;
     props_limit := limit limitParam |}.

(** The state the [useState] initialisers give. *)
Definition initialView (initialSelected : list jsstring) (minPrice maxPrice : Z)
    : ViewState :=
  {| sortBy := Newest; selectedCats := initialSelected; selectedSizes := [];
     searchQuery := str ""; currentPage := 1;
     priceRange := (minPrice, maxPrice) |}.

(** [clearAllFilters]; the value returned is the route given to
    [router.push]. *)
Definition clearAllFilters (minPrice maxPrice : Z) : M jsstring :=
  setSelectedCats (fun _ => ret []) ;;
  setSelectedSizes (fun _ => ret []) ;;
  setPriceRange (fun _ => ret (minPrice, maxPrice)) ;;
  setSearchQuery (fun _ => ret (str "")) ;;
  setCurrentPage 1 ;;
  ret (str "/products").

(** The condition of the effect that pushes the route [/products]. *)
Definition leavesForProducts (initialSelected : list jsstring)
    (minPrice maxPrice : Z) (s : ViewState) : bool :=
  negb (length (selectedCats s) =? length initialSelected)%nat
  || (0 <? length (selectedSizes s))%nat
  || nonEmpty (searchQuery s)
  || negb (fst (priceRange s) =? minPrice)
  || negb (snd (priceRange s) =? maxPrice).

(** The view on another page. *)
Definition onPage (k : Z) (V : ViewState) : ViewState :=
  exec (setCurrentPage k) V.

(** ** Notions used to state the properties *)

(** The alphabet of a slug: a-z, 0-9, the underscore and the hyphen. *)
Definition slugChar (c : ascii) : bool :=
  between 97 122 c || between 48 57 c || (code c =? 95)%N || isHyphen c.

Definition startsIn (p : ascii -> bool) (s : jsstring) : bool :=
  match s with
  | c :: _ => p c
  | [] => false
  end.

Definition endsIn (p : ascii -> bool) (s : jsstring) : bool :=
  startsIn p (rev s).

(** No two adjacent characters of class [p]. *)
Fixpoint noRepeat (p : ascii -> bool) (s : jsstring) : bool :=
  match s with
  | [] => true
  | c :: t => negb (p c && startsIn p t) && noRepeat p t
  end.

(** A string in slug form. *)
Definition isSlug (s : jsstring) : bool :=
  forallb slugChar s && noRepeat isHyphen s
  && negb (startsIn isHyphen s) && negb (endsIn isHyphen s).

(** The decimal numeral of a natural number, most significant digit
    first. *)
Definition digitChar (d : Z) : ascii := ascii_of_N (48 + Z.to_N d).

Fixpoint digitsOf (fuel : nat) (n : Z) (acc : jsstring) : jsstring :=
  match fuel with
  | O => acc
  | S fuel' =>
      let acc' := digitChar (n mod 10) :: acc in
      if n / 10 =? 0 then acc' else digitsOf fuel' (n / 10) acc'
  end.

Definition numeral (n : Z) : jsstring :=
  digitsOf (S (Z.to_nat (Z.log2 n))) n [].

(** The number a string of decimal digits denotes, after [a]. *)
Definition horner (a : Z) (ds : jsstring) : Z :=
  fold_left (fun a c => a * 10 + (Z.of_N (code c) - 48)) ds a.

(** The texts of a product that the search reads. *)
Definition ownText (p : Product) (text : jsstring) : Prop :=
  prod_name p = Some text \/
  (exists cats tag, category_group p = Some cats /\ In tag cats /\
                    tag_name tag = Some text) \/
  (exists vs v, variantsId p = Some vs /\ In v vs /\ condition v = Some text).

(** The parameter a mutator sets. *)
Inductive Param : Type := PSort | PSearch | PCategory | PSize | PPriceRange.

Definition target (m : Mutator) : Param :=
  match m with
  | MSort _ => PSort
  | MSearch _ => PSearch
  | MCategory _ => PCategory
  | MSize _ => PSize
  | MPriceRange _ => PPriceRange
  end.

(** [a] stands before [b] in [l]. *)
Definition before {A : Type} (l : list A) (a b : A) : Prop :=
  exists l1 l2 l3, l = l1 ++ a :: l2 ++ b :: l3.

(* ================================================================== *)
(** * Strings                                                          *)
(* ================================================================== *)

Lemma streqb_refl : forall a, streqb a a = true.
Proof.
  induction a as [|x a IH]; simpl; [reflexivity|].
  now rewrite Ascii.eqb_refl.
Qed.

Lemma streqb_eq : forall a b, streqb a b = true <-> a = b.
Proof.
  induction a as [|x a IH]; destruct b as [|y b]; simpl; split;
    try congruence; try reflexivity.
  - intros H. apply andb_true_iff in H as [Hxy Hab].
    apply Ascii.eqb_eq in Hxy. apply IH in Hab. congruence.
  - intros H. injection H as -> ->.
    now rewrite Ascii.eqb_refl, streqb_refl.
Qed.

Lemma streqb_neq : forall a b, streqb a b = false <-> a <> b.
Proof.
  intros a b. split.
  - intros H E. apply streqb_eq in E. congruence.
  - intros H. destruct (streqb a b) eqn:E; [|reflexivity].
    apply streqb_eq in E. contradiction.
Qed.

Lemma arrIncludes_In : forall l x, arrIncludes l x = true <-> In x l.
Proof.
  intros l x. unfold arrIncludes. rewrite existsb_exists. split.
  - intros [y [Hy E]]. apply streqb_eq in E. now subst.
  - intros H. exists x. split; [assumption | apply streqb_refl].
Qed.

Lemma toLowerCase_app : forall a b,
  toLowerCase (a ++ b) = toLowerCase a ++ toLowerCase b.
Proof. intros. apply map_app. Qed.

Lemma dropWhile_suffix : forall p s, exists dropped, s = dropped ++ dropWhile p s.
Proof.
  induction s as [|c s [d IH]]; simpl.
  - now exists [].
  - destruct (p c).
    + exists (c :: d). simpl. now rewrite <- IH.
    + now exists [].
Qed.

Lemma dropWhileEnd_prefix : forall p s, exists dropped, s = dropWhileEnd p s ++ dropped.
Proof.
  intros p s. unfold dropWhileEnd.
  destruct (dropWhile_suffix p (rev s)) as [d Hd].
  exists (rev d).
  rewrite <- rev_app_distr, <- Hd. symmetry. apply rev_involutive.
Qed.

Lemma trim_occurs : forall s, occursIn (trim s) s.
Proof.
  intros s. unfold trim, occursIn.
  destruct (dropWhile_suffix isSpace s) as [a Ha].
  destruct (dropWhileEnd_prefix isSpace (dropWhile isSpace s)) as [b Hb].
  exists a, b. now rewrite <- Hb.
Qed.

Lemma occursIn_trans : forall a b c, occursIn a b -> occursIn b c -> occursIn a c.
Proof.
  intros a b c [p1 [q1 H1]] [p2 [q2 H2]]. subst.
  exists (p2 ++ p1), (q1 ++ q2). now rewrite !app_assoc.
Qed.

Lemma occursIn_toLowerCase : forall a b,
  occursIn a b -> occursIn (toLowerCase a) (toLowerCase b).
Proof.
  intros a b [p [q H]]. subst.
  exists (toLowerCase p), (toLowerCase q). now rewrite !toLowerCase_app.
Qed.

Lemma startsWith_spec : forall q s,
  startsWith s q = true <-> exists after, s = q ++ after.
Proof.
  induction q as [|y q IH]; intros s; simpl.
  - split; [intros _; now exists s | reflexivity].
  - destruct s as [|x s].
    + split; [discriminate | intros [a Ha]; discriminate].
    + rewrite andb_true_iff, IH, Ascii.eqb_eq. split.
      * intros [-> [a ->]]. now exists a.
      * intros [a Ha]. injection Ha as -> ->. split; [reflexivity | now exists a].
Qed.

Lemma includes_spec : forall s q, includes s q = true <-> occursIn q s.
Proof.
  unfold occursIn. induction s as [|x s IH]; intros q.
  - simpl. rewrite orb_false_r, startsWith_spec. split.
    + intros [a Ha]. now exists [], a.
    + intros [b [a Ha]]. destruct b; [now exists a | discriminate].
  - cbn [includes]. rewrite orb_true_iff, startsWith_spec, IH. split.
    + intros [[a Ha] | [b [a Ha]]].
      * now exists [], a.
      * exists (x :: b), a. simpl. now rewrite Ha.
    + intros [b [a Ha]]. destruct b as [|y b].
      * left. now exists a.
      * right. injection Ha as _ Ha. now exists b, a.
Qed.

(* ================================================================== *)
(** * Category resolver                                                *)
(* ================================================================== *)

Lemma find_first : forall {A : Type} (f : A -> bool) (l : list A),
  match find f l with
  | Some x =>
      exists before after,
        l = before ++ x :: after /\ f x = true /\
        Forall (fun y => f y = false) before
  | None => Forall (fun y => f y = false) l
  end.
Proof.
  intros A f. induction l as [|y l IH]; simpl.
  - constructor.
  - destruct (f y) eqn:Fy.
    + exists [], l. repeat split; [assumption | constructor].
    + destruct (find f l) as [x|].
      * destruct IH as [b [a [Hl [Fx Hb]]]].
        exists (y :: b), a. subst. repeat split; [assumption|].
        now constructor.
      * now constructor.
Qed.

Lemma Forall_slug_mismatch : forall target l,
  Forall (fun c => streqb (createSlug (cat_name c)) target = false) l ->
  Forall (fun c => createSlug (cat_name c) <> target) l.
Proof.
  intros target l H. eapply Forall_impl; [|exact H].
  intros c Hc. now apply streqb_neq.
Qed.

(** C1 (as the code has it): the resolver returns the first category, in
    list order, whose normalised name equals the requested slug in lower
    case, and nothing when no category does. The requested slug itself is
    only lower-cased; when it is already in normalised form the result is
    the first match on the normalised slug. *)
Theorem findMainCategory_first_match : forall slug categories,
  match findMainCategory slug categories with
  | Some c =>
      exists before after,
        categories = before ++ c :: after /\
        createSlug (cat_name c) = toLowerCase slug /\
        Forall (fun c' => createSlug (cat_name c') <> toLowerCase slug) before
  | None =>
      Forall (fun c' => createSlug (cat_name c') <> toLowerCase slug) categories
  end /\
  (createSlug slug = toLowerCase slug ->
   findMainCategory slug categories = resolve_as_specified slug categories).
Proof.
  intros slug categories. split.
  - unfold findMainCategory.
    pose proof (find_first
      (fun cat => streqb (createSlug (cat_name cat)) (toLowerCase slug))
      categories) as H.
    destruct (find _ categories) as [c|].
    + destruct H as [b [a [Hl [Hc Hb]]]].
      exists b, a. repeat split.
      * exact Hl.
      * now apply streqb_eq.
      * now apply Forall_slug_mismatch.
    + now apply Forall_slug_mismatch.
  - intros E. unfold findMainCategory, resolve_as_specified. now rewrite E.
Qed.

Lemma findMainCategory_first_match_witness :
  findMainCategory (str "T-Shirt")
    [mkCategory (str "c0") (str "Pants") None;
     mkCategory (str "c1") (str "T Shirt") None;
     mkCategory (str "c2") (str "t  shirt!") None]
  = resolve_as_specified (str "T-Shirt")
    [mkCategory (str "c0") (str "Pants") None;
     mkCategory (str "c1") (str "T Shirt") None;
     mkCategory (str "c2") (str "t  shirt!") None].
Proof.
  apply (findMainCategory_first_match (str "T-Shirt")
    [mkCategory (str "c0") (str "Pants") None;
     mkCategory (str "c1") (str "T Shirt") None;
     mkCategory (str "c2") (str "t  shirt!") None]).
  vm_compute. reflexivity.
Defined.

(** C1 (as stated) fails: the category "T Shirt" and the requested slug
    "t--shirt" normalise to the same slug, yet the resolver finds nothing,
    because the requested slug is compared without being normalised. *)
Lemma findMainCategory_unnormalised_slug :
  createSlug (str "T Shirt") = createSlug (str "t--shirt") /\
  findMainCategory (str "t--shirt")
    [mkCategory (str "c1") (str "T Shirt") None] = None /\
  resolve_as_specified (str "t--shirt")
    [mkCategory (str "c1") (str "T Shirt") None]
  = Some (mkCategory (str "c1") (str "T Shirt") None).
Proof. vm_compute. repeat split. Qed.

(* ================================================================== *)
(** * Pagination seeds                                                 *)
(* ================================================================== *)

Lemma dropWhile_In : forall p s c, In c (dropWhile p s) -> In c s.
Proof.
  intros p s c H. destruct (dropWhile_suffix p s) as [d Hd].
  rewrite Hd. apply in_or_app. now right.
Qed.

Lemma digitValue_letter : forall c d,
  isDecimalDigit c = false -> digitValue c = Some d -> 10 <= d.
Proof.
  unfold isDecimalDigit, digitValue, between. intros c d Hc.
  rewrite Hc.
  destruct ((97 <=? code c)%N && (code c <=? 122)%N) eqn:E1.
  - apply andb_true_iff in E1 as [L _]. apply N.leb_le in L.
    intros H. injection H as <-. lia.
  - destruct ((65 <=? code c)%N && (code c <=? 90)%N) eqn:E2; [|discriminate].
    apply andb_true_iff in E2 as [L _]. apply N.leb_le in L.
    intros H. injection H as <-. lia.
Qed.

Lemma digitsPrefix_no_digit : forall s,
  (forall c, In c s -> isDecimalDigit c = false) ->
  digitsPrefix 10 None s = None.
Proof.
  intros [|c t] H; simpl; [reflexivity|].
  destruct (digitValue c) as [d|] eqn:D; [|reflexivity].
  assert (10 <= d) as Hd.
  { apply (digitValue_letter c); [apply H; now left | assumption]. }
  destruct (d <? 10) eqn:L; [|reflexivity].
  apply Z.ltb_lt in L. lia.
Qed.

(** A string without any decimal digit does not start with an integer. *)
Lemma parseInt_no_digit : forall s,
  (forall c, In c s -> isDecimalDigit c = false) -> parseInt s = None.
Proof.
  intros s H. unfold parseInt.
  assert (forall c, In c (dropWhile isSpace s) -> isDecimalDigit c = false) as H1.
  { intros c Hc. apply H. eapply dropWhile_In. exact Hc. }
  set (s1 := dropWhile isSpace s) in *. clearbody s1.
  assert (exists sign s2,
    match s1 with
    | c :: t =>
        if (code c =? 45)%N then (-1, t)
        else if (code c =? 43)%N then (1, t) else (1, s1)
    | [] => (1, s1)
    end = (sign, s2) /\
    forall c, In c s2 -> isDecimalDigit c = false) as [sign [s2 [E H2]]].
  { destruct s1 as [|c t].
    - exists 1, []. split; [reflexivity | intros c []].
    - destruct (code c =? 45)%N.
      + exists (-1), t. split; [reflexivity|]. intros x Hx. apply H1. now right.
      + destruct (code c =? 43)%N.
        * exists 1, t. split; [reflexivity|]. intros x Hx. apply H1. now right.
        * exists 1, (c :: t). split; [reflexivity | assumption]. }
  rewrite E. clear E H1.
  assert (match s2 with
    | z :: x :: t =>
        if (code z =? 48)%N && ((code x =? 120)%N || (code x =? 88)%N)
        then (16, t) else (10, s2)
    | _ => (10, s2)
    end = (10, s2)) as E.
  { destruct s2 as [|z [|x t]]; try reflexivity.
    destruct (code z =? 48)%N eqn:Z0; [|reflexivity].
    exfalso. apply N.eqb_eq in Z0.
    assert (isDecimalDigit z = false) as Hz by (apply H2; now left).
    unfold isDecimalDigit, between in Hz. rewrite Z0 in Hz. discriminate. }
  rewrite E. now rewrite digitsPrefix_no_digit.
Qed.

Lemma parseIntOr_cases : forall d q,
  parseIntOr d q = d \/
  exists n, parseInt (queryText q) = Some n /\ n <> 0 /\ parseIntOr d q = n.
Proof.
  intros d q. unfold parseIntOr.
  destruct (parseInt (queryText q)) as [n|]; [|now left].
  destruct (n =? 0) eqn:E; [now left|].
  right. exists n. apply Z.eqb_neq in E. now repeat split.
Qed.

(** C6 (as the code has it): a missing [page] or [limit], one that does not
    start with an integer (in particular one without any digit), or one
    that reads as 0, silently yields 1, respectively 20; any other value
    yields the integer read. The seeded page is therefore never 0, and it
    is at least 1 unless the value reads as a negative integer. *)
Theorem seeds_fall_back : forall q,
  page QMissing = 1 /\ limit QMissing = 20 /\
  (parseInt (queryText q) = None \/ parseInt (queryText q) = Some 0 ->
   page q = 1 /\ limit q = 20) /\
  (forall s, q = QString s ->
     (forall c, In c s -> isDecimalDigit c = false) ->
     page q = 1 /\ limit q = 20) /\
  (forall n, parseInt (queryText q) = Some n -> n <> 0 ->
     page q = n /\ limit q = n) /\
  page q <> 0 /\ limit q <> 0 /\
  (1 <= page q \/
   exists n, parseInt (queryText q) = Some n /\ n < 0 /\ page q = n).
Proof.
  intros q.
  split; [reflexivity|]. split; [reflexivity|].
  split.
  { intros [H | H]; unfold page, limit, parseIntOr; now rewrite H. }
  split.
  { intros s -> H. unfold page, limit, parseIntOr. simpl.
    now rewrite (parseInt_no_digit s H). }
  split.
  { intros n H Hn. unfold page, limit, parseIntOr. rewrite H.
    apply Z.eqb_neq in Hn. now rewrite Hn. }
  split.
  { unfold page. destruct (parseIntOr_cases 1 q) as [E | [n [_ [Hn E]]]]; lia. }
  split.
  { unfold limit. destruct (parseIntOr_cases 20 q) as [E | [n [_ [Hn E]]]]; lia. }
  unfold page. destruct (parseIntOr_cases 1 q) as [E | [n [Hp [Hn E]]]].
  - left. lia.
  - destruct (Z_lt_le_dec n 0) as [L | L].
    + right. exists n. now repeat split.
    + left. lia.
Qed.

Lemma seeds_fall_back_witness :
  page (QString (str "next")) = 1 /\ limit (QString (str "next")) = 20.
Proof.
  destruct (seeds_fall_back (QString (str "next")))
    as [_ [_ [_ [H _]]]].
  apply (H (str "next")); [reflexivity|].
  intros c Hc. simpl in Hc.
  repeat (destruct Hc as [<- | Hc]; [reflexivity|]). contradiction.
Defined.

(** C6 (as stated) fails: the value "-5" is read as the integer -5, which is
    truthy, so the seeded page is -5 and not at least 1. *)
Lemma page_negative_seed :
  page (QString (str "-5")) = -5 /\ ~ (1 <= page (QString (str "-5"))).
Proof.
  split; [reflexivity|].
  intros H. vm_compute in H. now apply H.
Qed.

(* ================================================================== *)
(** * Descendant-set expansion                                         *)
(* ================================================================== *)

(** Induction over a category tree with its children. *)
Lemma Category_tree_ind : forall P : Category -> Prop,
  (forall c, Forall P (childrenOf c) -> P c) -> forall c, P c.
Proof.
  intros P step.
  fix IH 1. intros [i n ch]. apply step.
  destruct ch as [cs|]; cbn; [|constructor].
  induction cs as [|c cs IHcs]; constructor; [apply IH | exact IHcs].
Qed.

Lemma fold_left_concat : forall (A B : Type) (f : A -> list B) l acc,
  fold_left (fun ids child => ids ++ f child) l acc = acc ++ flat_map f l.
Proof.
  intros A B f. induction l as [|x l IH]; intros acc; simpl.
  - now rewrite app_nil_r.
  - now rewrite IH, app_assoc.
Qed.

Lemma getAllDescendantIds_unfold : forall c,
  getAllDescendantIds c
  = cat_id c :: flat_map getAllDescendantIds (childrenOf c).
Proof.
  intros [i n [[|c cs]|]]; try reflexivity.
  cbn [getAllDescendantIds]. now rewrite fold_left_concat.
Qed.

Lemma nodes_unfold : forall c, nodes c = S (nodesOf (childrenOf c)).
Proof.
  intros [i n [cs|]]; cbn; [|reflexivity].
  f_equal.
Qed.

Lemma nodesOf_app : forall a b, nodesOf (a ++ b) = (nodesOf a + nodesOf b)%nat.
Proof.
  induction a as [|c a IH]; intros b; simpl; [reflexivity|].
  rewrite IH. lia.
Qed.

(** With fuel for every pending node, the stack traversal lists the
    expansions of the pending nodes one after the other. *)
Lemma preorder_flat_map : forall fuel pending,
  (nodesOf pending <= fuel)%nat ->
  preorder fuel pending = flat_map getAllDescendantIds pending.
Proof.
  induction fuel as [|fuel IH]; intros pending Hf.
  - destruct pending as [|c rest]; [reflexivity|].
    simpl in Hf. rewrite nodes_unfold in Hf. lia.
  - destruct pending as [|c rest]; [reflexivity|].
    cbn [preorder flat_map]. rewrite getAllDescendantIds_unfold.
    rewrite IH.
    + now rewrite flat_map_app.
    + rewrite nodesOf_app. simpl in Hf. rewrite nodes_unfold in Hf. lia.
Qed.

Lemma length_flat_map_nodes : forall l,
  Forall (fun c => length (getAllDescendantIds c) = nodes c) l ->
  length (flat_map getAllDescendantIds l) = nodesOf l.
Proof.
  induction 1 as [|c l Hc Hl IH]; simpl; [reflexivity|].
  now rewrite length_app, Hc, IH.
Qed.

Lemma length_getAllDescendantIds : forall c,
  length (getAllDescendantIds c) = nodes c.
Proof.
  induction c as [c IH] using Category_tree_ind.
  rewrite getAllDescendantIds_unfold, nodes_unfold. simpl.
  now rewrite length_flat_map_nodes.
Qed.

Lemma In_getAllDescendantIds : forall c i,
  In i (getAllDescendantIds c) <-> exists d, Reaches c d /\ cat_id d = i.
Proof.
  intros c i. split.
  - revert i. induction c as [c IH] using Category_tree_ind. intros i H.
    rewrite getAllDescendantIds_unfold in H. destruct H as [H | H].
    + exists c. split; [constructor | assumption].
    + apply in_flat_map in H as [child [Hch Hi]].
      rewrite Forall_forall in IH.
      destruct (IH child Hch i Hi) as [d [Hr Hd]].
      exists d. split; [|assumption].
      now apply reaches_child with child.
  - intros [d [Hr Hd]]. subst i.
    induction Hr as [c | c child d Hch Hr IH];
      rewrite getAllDescendantIds_unfold.
    + now left.
    + right. apply in_flat_map. now exists child.
Qed.

(** C9: the expansion of a category is its own id followed by the
    expansions of its children in order, which is the depth-first pre-order
    listing of the ids reachable along [children] edges, one id per node;
    a category with two children that have one childless child each expands
    to five ids. *)
Theorem getAllDescendantIds_preorder : forall c,
  getAllDescendantIds c
  = cat_id c :: flat_map getAllDescendantIds (childrenOf c) /\
  getAllDescendantIds c = preorder (nodes c) [c] /\
  (forall i, In i (getAllDescendantIds c) <->
             exists d, Reaches c d /\ cat_id d = i) /\
  length (getAllDescendantIds c) = nodes c /\
  (forall a b g1 g2 na nb,
     children c = Some [mkCategory a na (Some [g1]); mkCategory b nb (Some [g2])] ->
     childrenOf g1 = [] -> childrenOf g2 = [] ->
     getAllDescendantIds c = [cat_id c; a; cat_id g1; b; cat_id g2]).
Proof.
  intros c. split; [apply getAllDescendantIds_unfold|].
  split.
  { rewrite preorder_flat_map; [simpl; now rewrite app_nil_r|].
    simpl. lia. }
  split; [intros i; apply In_getAllDescendantIds|].
  split; [apply length_getAllDescendantIds|].
  intros a b g1 g2 na nb Hc H1 H2.
  rewrite getAllDescendantIds_unfold. unfold childrenOf at 1. rewrite Hc.
  cbn [flat_map]. rewrite !getAllDescendantIds_unfold.
  cbn [childrenOf children flat_map cat_id].
  rewrite !getAllDescendantIds_unfold, H1, H2. reflexivity.
Qed.

Lemma getAllDescendantIds_preorder_witness :
  getAllDescendantIds
    (mkCategory (str "root") (str "Women") (Some
       [mkCategory (str "a") (str "Dresses")
          (Some [mkCategory (str "a1") (str "Maxi") None]);
        mkCategory (str "b") (str "Tops")
          (Some [mkCategory (str "b1") (str "Shirts") (Some [])])]))
  = [str "root"; str "a"; str "a1"; str "b"; str "b1"].
Proof.
  exact (proj2 (proj2 (proj2 (proj2 (getAllDescendantIds_preorder
    (mkCategory (str "root") (str "Women") (Some
       [mkCategory (str "a") (str "Dresses")
          (Some [mkCategory (str "a1") (str "Maxi") None]);
        mkCategory (str "b") (str "Tops")
          (Some [mkCategory (str "b1") (str "Shirts") (Some [])])]))))))
    (str "a") (str "b")
    (mkCategory (str "a1") (str "Maxi") None)
    (mkCategory (str "b1") (str "Shirts") (Some []))
    (str "Dresses") (str "Tops") eq_refl eq_refl eq_refl).
Defined.

(* ================================================================== *)
(** * Parameter mutators                                               *)
(* ================================================================== *)

(** C5: whatever the view state, every mutator (search, category, size,
    price range, sort) called with a value or with an updating function
    leaves the current page at 1, and stores the requested parameter. *)
Theorem mutators_reset_page : forall (m : Mutator) (s : ViewState),
  currentPage (exec (mutate m) s) = 1 /\
  match m with
  | MSort a => sortBy (exec (mutate m) s) = applyAction a (sortBy s)
  | MSearch a => searchQuery (exec (mutate m) s) = applyAction a (searchQuery s)
  | MCategory a =>
      selectedCats (exec (mutate m) s) = applyAction a (selectedCats s)
  | MSize a =>
      selectedSizes (exec (mutate m) s) = applyAction a (selectedSizes s)
  | MPriceRange a =>
      priceRange (exec (mutate m) s) = applyAction a (priceRange s)
  end.
Proof.
  intros [a | a | a | a | a] s; destruct a; split; reflexivity.
Qed.

(** On page 3, selecting a further size brings the view back to page 1. *)
Example size_selection_from_page_3 : forall s sz,
  currentPage s = 3 ->
  currentPage (exec (handleSizeChange (Update (fun prev => sz :: prev))) s) = 1
  /\ selectedSizes (exec (handleSizeChange (Update (fun prev => sz :: prev))) s)
     = sz :: selectedSizes s.
Proof. intros s sz _. split; reflexivity. Qed.

(* ================================================================== *)
(** * Effective price                                                  *)
(* ================================================================== *)


Lemma getPrice_price : forall now p, getPrice now p = price now p.
Proof. reflexivity. Qed.

Lemma boundPrice_price : forall now p, boundPrice now p = price now p.
Proof. reflexivity. Qed.








(** C7: a product whose variant sequence is missing or empty has effective
    price 0 in the filter callback, in the sort comparator and in the
    computation of the price bounds. *)
Theorem price_without_variants : forall now p,
  variantsId p = None \/ variantsId p = Some [] ->
  price now p = Fin 0 /\ getPrice now p = Fin 0 /\ boundPrice now p = Fin 0.
Proof.
  intros now p [H | H]; unfold price, getPrice, boundPrice; rewrite H;
    repeat split; reflexivity.
Qed.

Lemma price_without_variants_witness :
  price 1700000000000
    {| prod_id := Some (str "p2"); prod_name := Some (str "Scarf");
       category_group := None; variantsId := Some [] |} = Fin 0 /\
  getPrice 1700000000000
    {| prod_id := Some (str "p2"); prod_name := Some (str "Scarf");
       category_group := None; variantsId := Some [] |} = Fin 0 /\
  boundPrice 1700000000000
    {| prod_id := Some (str "p2"); prod_name := Some (str "Scarf");
       category_group := None; variantsId := Some [] |} = Fin 0.
Proof.
  apply (price_without_variants 1700000000000
    {| prod_id := Some (str "p2"); prod_name := Some (str "Scarf");
       category_group := None; variantsId := Some [] |}).
  right. reflexivity.
Defined.

(* ================================================================== *)
(** * Sorting                                                          *)
(* ================================================================== *)

Section Order.

Variable A : Type.
Variable order : A -> A -> Z.
Variable l : list A.
Hypothesis order_consistent : consistentOn order l.

Lemma order_flip : forall a b,
  In a l -> In b l -> (0 <= order a b <-> order b a <= 0).
Proof.
  intros a b Ha Hb. destruct order_consistent as [Hsym _].
  pose proof (Hsym a b Ha Hb) as H.
  destruct (Z.sgn_spec (order a b)) as [[? S1]|[[? S1]|[? S1]]];
  destruct (Z.sgn_spec (order b a)) as [[? S2]|[[? S2]|[? S2]]]; lia.
Qed.

Lemma order_refl : forall a, In a l -> order a a = 0.
Proof.
  intros a Ha. destruct order_consistent as [Hsym _].
  pose proof (Hsym a a Ha Ha) as H.
  destruct (Z.sgn_spec (order a a)) as [[? S1]|[[? S1]|[? S1]]]; lia.
Qed.

Lemma order_trans : forall a b c,
  In a l -> In b l -> In c l ->
  order a b <= 0 -> order b c <= 0 -> order a c <= 0.
Proof. destruct order_consistent as [_ Htrans]. exact Htrans. Qed.

Lemma order_lt_le : forall a b c,
  In a l -> In b l -> In c l ->
  order a b < 0 -> order b c <= 0 -> order a c < 0.
Proof.
  intros a b c Ha Hb Hc Hab Hbc.
  destruct (Z_lt_le_dec (order a c) 0) as [H | H]; [exact H|].
  apply order_flip in H; try assumption.
  pose proof (order_trans b c a Hb Hc Ha Hbc H) as Hba.
  apply order_flip in Hba; try assumption. lia.
Qed.

Lemma order_zero_class : forall z x y,
  In z l -> In x l -> In y l ->
  order z x = 0 -> order z y = 0 -> order x y = 0.
Proof.
  intros z x y Hz Hx Hy Ex Ey.
  assert (order x z <= 0) as H1 by (apply order_flip; try assumption; lia).
  assert (order y z <= 0) as H2 by (apply order_flip; try assumption; lia).
  assert (order x y <= 0) as H3
    by (apply order_trans with z; try assumption; lia).
  assert (order y x <= 0) as H4
    by (apply order_trans with z; try assumption; lia).
  apply order_flip in H4; try assumption. lia.
Qed.

Lemma ordered_tail : forall x t, ordered order (x :: t) -> ordered order t.
Proof.
  intros x [|y t] H; [exact I|]. cbn [ordered] in H. apply H.
Qed.

Lemma ordered_cons : forall x t,
  Forall (fun y => order x y <= 0) t -> ordered order t ->
  ordered order (x :: t).
Proof.
  intros x [|y t] H Ht; [exact I|].
  cbn [ordered]. inversion H; subst. split; assumption.
Qed.

Lemma ordered_app_r : forall a b, ordered order (a ++ b) -> ordered order b.
Proof.
  induction a as [|x a IH]; intros b H; [exact H|].
  apply IH. cbn [app] in H. now apply ordered_tail in H.
Qed.

Lemma ordered_app_l : forall a b, ordered order (a ++ b) -> ordered order a.
Proof.
  induction a as [|x a IH]; intros b H; [exact I|].
  destruct a as [|y a]; [exact I|].
  cbn [app ordered] in *. destruct H as [Hxy H]. split; [exact Hxy|].
  now apply (IH b).
Qed.

Lemma ordered_head : forall t x,
  incl (x :: t) l -> ordered order (x :: t) ->
  Forall (fun y => order x y <= 0) t.
Proof.
  induction t as [|y t IH]; intros x Hin H; [constructor|].
  cbn [ordered] in H. destruct H as [Hxy Ht].
  assert (In x l) as Hx by (apply Hin; now left).
  assert (In y l) as Hy by (apply Hin; right; now left).
  assert (incl (y :: t) l) as Hin' by (intros z Hz; apply Hin; now right).
  constructor; [exact Hxy|].
  pose proof (IH y Hin' Ht) as Hall. rewrite Forall_forall in *.
  intros z Hz. apply order_trans with y; try assumption.
  - apply Hin'. now right.
  - now apply Hall.
Qed.

Lemma ordered_split : forall a e b,
  incl (a ++ e :: b) l -> ordered order (a ++ e :: b) ->
  Forall (fun x => order x e <= 0) a /\ Forall (fun y => order e y <= 0) b.
Proof.
  induction a as [|x a IH]; intros e b Hin H.
  - split; [constructor | now apply ordered_head].
  - cbn [app] in *.
    assert (incl (a ++ e :: b) l) as Hin'
      by (intros z Hz; apply Hin; now right).
    destruct (IH e b Hin' (ordered_tail _ _ H)) as [Ha Hb].
    split; [|exact Hb]. constructor; [|exact Ha].
    pose proof (ordered_head _ _ Hin H) as Hall.
    rewrite Forall_forall in Hall. apply Hall.
    apply in_or_app. right. now left.
Qed.

Lemma ordered_join : forall a x b,
  ordered order a -> Forall (fun y => order y x <= 0) a ->
  ordered order (x :: b) -> ordered order (a ++ x :: b).
Proof.
  induction a as [|y a IH]; intros x b Ha Hall Hb; [exact Hb|].
  inversion Hall as [|? ? Hyx Hall']; subst.
  destruct a as [|z a].
  - cbn. split; assumption.
  - cbn [app ordered] in *. destruct Ha as [Hyz Ha].
    split; [exact Hyz|]. now apply (IH x b).
Qed.

Lemma ordered_before : forall t a b,
  incl t l -> ordered order t -> before t a b -> order a b <= 0.
Proof.
  intros t a b Hin H [l1 [l2 [l3 E]]]. subst t.
  assert (incl (a :: l2 ++ b :: l3) l) as Hin'
    by (intros z Hz; apply Hin; apply in_or_app; now right).
  apply ordered_app_r in H. apply (ordered_head _ _ Hin') in H.
  rewrite Forall_forall in H. apply H.
  apply in_or_app. right. now left.
Qed.

(** Two arrangements of the same elements that are both in order and keep
    the elements that compare equal in the same places are the same. *)
Lemma stable_order_unique : forall l1 l2,
  incl l1 l -> ordered order l1 -> ordered order l2 -> Permutation l1 l2 ->
  (forall x, In x l ->
     filter (fun y => order x y =? 0) l1 = filter (fun y => order x y =? 0) l2) ->
  l1 = l2.
Proof.
  induction l1 as [|x t1 IH]; intros l2 Hin O1 O2 P F.
  - apply Permutation_nil in P. now subst.
  - destruct l2 as [|y t2];
      [apply Permutation_sym, Permutation_nil in P; discriminate|].
    assert (incl (y :: t2) l) as Hin2.
    { intros z Hz. apply Hin.
      eapply Permutation_in; [apply Permutation_sym; exact P | exact Hz]. }
    assert (In x l) as Hx by (apply Hin; now left).
    assert (In y l) as Hy by (apply Hin2; now left).
    assert (order x y <= 0) as Hxy.
    { assert (In y (x :: t1)) as [<- | Hy1]
        by (eapply Permutation_in;
            [apply Permutation_sym; exact P | now left]).
      - rewrite order_refl by assumption. lia.
      - pose proof (ordered_head _ _ Hin O1) as Hall.
        rewrite Forall_forall in Hall. now apply Hall. }
    assert (order y x <= 0) as Hyx.
    { assert (In x (y :: t2)) as [<- | Hx2]
        by (eapply Permutation_in; [exact P | now left]).
      - rewrite order_refl by assumption. lia.
      - pose proof (ordered_head _ _ Hin2 O2) as Hall.
        rewrite Forall_forall in Hall. now apply Hall. }
    assert (order x y = 0) as E.
    { apply order_flip in Hyx; try assumption. lia. }
    pose proof (F x Hx) as Fx. cbn [filter] in Fx.
    rewrite (order_refl x Hx), E in Fx. cbn in Fx.
    injection Fx as <- _.
    f_equal. apply IH.
    + intros z Hz. apply Hin. now right.
    + now apply ordered_tail in O1.
    + now apply ordered_tail in O2.
    + now apply Permutation_cons_inv in P.
    + intros z Hz. pose proof (F z Hz) as Fz. cbn [filter] in Fz.
      destruct (order z x =? 0); [now injection Fz | exact Fz].
Qed.

End Order.

(** ** Binary insertion keeps the contract *)

Section BinaryInsertion.

Variable A : Type.
Variable comparefn : nat -> A -> A -> num.

Lemma In_firstn_list : forall (s : list A) n x, In x (firstn n s) -> In x s.
Proof.
  intros s n x H. rewrite <- (firstn_skipn n s). apply in_or_app. now left.
Qed.

Lemma In_skipn_list : forall (s : list A) n x, In x (skipn n s) -> In x s.
Proof.
  intros s n x H. rewrite <- (firstn_skipn n s). apply in_or_app. now right.
Qed.

Lemma filter_none : forall (f : A -> bool) (s : list A),
  (forall y, In y s -> f y = false) -> filter f s = [].
Proof.
  intros f. induction s as [|y s IH]; intros H; [reflexivity|].
  cbn [filter]. rewrite (H y) by now left.
  apply IH. intros z Hz. apply H. now right.
Qed.

Lemma binaryInsert_permutes : forall pivot sorted k,
  Permutation (pivot :: sorted) (fst (binaryInsert comparefn pivot sorted k)).
Proof.
  intros pivot sorted k. unfold binaryInsert.
  destruct (binarySearch (length sorted) comparefn pivot sorted 0
                         (length sorted) k) as [place k'].
  cbn [fst]. rewrite <- (firstn_skipn place sorted) at 1.
  apply Permutation_middle.
Qed.

Lemma binaryInsertionSort_permutes : forall rest sorted k,
  Permutation (sorted ++ rest) (binaryInsertionSort comparefn sorted rest k).
Proof.
  induction rest as [|x rest IH]; intros sorted k; cbn [binaryInsertionSort].
  - rewrite app_nil_r. apply Permutation_refl.
  - pose proof (binaryInsert_permutes x sorted k) as P.
    destruct (binaryInsert comparefn x sorted k) as [sorted' k'].
    cbn [fst] in P.
    eapply Permutation_trans; [|apply IH].
    eapply Permutation_trans; [apply Permutation_sym, Permutation_middle|].
    exact (Permutation_app_tail rest P).
Qed.

Variable order : A -> A -> Z.
Variable l : list A.
Hypothesis comparefn_order :
  forall k a b, In a l -> In b l -> sortCompare (comparefn k a b) = order a b.
Hypothesis order_consistent : consistentOn order l.

Lemma half_lt : forall n, (0 < n -> n / 2 < n)%nat.
Proof. intros n H. apply Nat.div_lt; lia. Qed.

Lemma nth_error_split_at : forall (s : list A) i e,
  nth_error s i = Some e -> s = firstn i s ++ e :: skipn (S i) s.
Proof.
  induction s as [|x s IH]; intros [|i] e H; cbn in *; try discriminate.
  - now injection H as ->.
  - f_equal. now apply IH.
Qed.

Lemma binarySearch_place : forall fuel pivot sorted left right k,
  In pivot l -> incl sorted l -> ordered order sorted ->
  (left <= right <= length sorted)%nat -> (right - left <= fuel)%nat ->
  Forall (fun e => 0 <= order pivot e) (firstn left sorted) ->
  Forall (fun e => order pivot e < 0) (skipn right sorted) ->
  Forall (fun e => 0 <= order pivot e)
         (firstn (fst (binarySearch fuel comparefn pivot sorted left right k))
                 sorted) /\
  Forall (fun e => order pivot e < 0)
         (skipn (fst (binarySearch fuel comparefn pivot sorted left right k))
                sorted).
Proof.
  induction fuel as [|fuel IH];
    intros pivot sorted left right k Hp Hin Hord Hlr Hfuel Hleft Hright.
  - cbn. assert (left = right) as -> by lia. split; assumption.
  - cbn [binarySearch]. destruct (left <? right)%nat eqn:L.
    2:{ apply Nat.ltb_ge in L. assert (left = right) as -> by lia.
        split; assumption. }
    apply Nat.ltb_lt in L.
    set (mid := (left + (right - left) / 2)%nat).
    assert (left <= mid < right)%nat as Hmid.
    { unfold mid. pose proof (half_lt (right - left) ltac:(lia)). lia. }
    destruct (nth_error sorted mid) as [e|] eqn:He.
    2:{ apply nth_error_None in He. lia. }
    pose proof (nth_error_split_at sorted mid e He) as Hsplit.
    assert (In e l) as Hel by (apply Hin; eapply nth_error_In; exact He).
    assert (incl (firstn mid sorted ++ e :: skipn (S mid) sorted) l) as Hin'
      by (rewrite <- Hsplit; exact Hin).
    assert (ordered order (firstn mid sorted ++ e :: skipn (S mid) sorted))
      as Hord' by (rewrite <- Hsplit; exact Hord).
    destruct (ordered_split A order l order_consistent _ _ _ Hin' Hord')
      as [Hbefore Hafter].
    rewrite (comparefn_order k pivot e Hp Hel).
    destruct (order pivot e <? 0) eqn:E.
    + apply Z.ltb_lt in E. apply IH; try assumption; try lia.
      assert (skipn mid sorted = e :: skipn (S mid) sorted) as ->.
      { rewrite Hsplit at 1. rewrite skipn_app.
        rewrite skipn_all2 by (rewrite length_firstn; lia).
        rewrite length_firstn.
        replace (mid - Nat.min mid (length sorted))%nat with O by lia.
        reflexivity. }
      constructor; [exact E|].
      rewrite Forall_forall in *. intros y Hy.
      apply (order_lt_le A order l order_consistent pivot e y);
        try assumption.
      * apply Hin. eapply In_skipn_list. exact Hy.
      * now apply Hafter.
    + apply Z.ltb_ge in E. apply IH; try assumption; try lia.
      assert (firstn (S mid) sorted = firstn mid sorted ++ [e]) as ->.
      { rewrite Hsplit at 1. rewrite firstn_app.
        rewrite length_firstn.
        replace (S mid - Nat.min mid (length sorted))%nat with 1%nat by lia.
        rewrite firstn_firstn.
        replace (Nat.min (S mid) mid) with mid by lia. reflexivity. }
      apply Forall_app. split; [|repeat constructor; exact E].
      rewrite Forall_forall in *. intros x Hx.
      assert (In x l) as Hxl
        by (apply Hin; eapply In_firstn_list; exact Hx).
      apply (order_flip A order l order_consistent); try assumption.
      apply (order_trans A order l order_consistent x e pivot);
        try assumption.
      * now apply Hbefore.
      * apply (order_flip A order l order_consistent); assumption.
Qed.

Lemma binaryInsert_keeps : forall pivot sorted k,
  In pivot l -> incl sorted l -> ordered order sorted ->
  ordered order (fst (binaryInsert comparefn pivot sorted k)) /\
  (forall z, In z l ->
     filter (fun y => order z y =? 0) (fst (binaryInsert comparefn pivot sorted k))
     = filter (fun y => order z y =? 0) (sorted ++ [pivot])).
Proof.
  intros pivot sorted k Hp Hin Hord.
  destruct (binarySearch_place (length sorted) pivot sorted 0 (length sorted) k
              Hp Hin Hord) as [Hbefore Hafter]; try lia.
  { constructor. }
  { rewrite skipn_all. constructor. }
  unfold binaryInsert.
  destruct (binarySearch (length sorted) comparefn pivot sorted 0
                         (length sorted) k) as [place k'].
  cbn [fst] in *.
  assert (incl (firstn place sorted) l) as Hin1
    by (intros z Hz; apply Hin; eapply In_firstn_list; exact Hz).
  assert (incl (skipn place sorted) l) as Hin2
    by (intros z Hz; apply Hin; eapply In_skipn_list; exact Hz).
  pose proof Hord as Hord'. rewrite <- (firstn_skipn place sorted) in Hord'.
  split.
  - apply ordered_join.
    + now apply ordered_app_l in Hord'.
    + rewrite Forall_forall in *. intros y Hy.
      apply (order_flip A order l order_consistent); auto.
    + apply ordered_cons.
      * eapply Forall_impl; [|exact Hafter]. intros y Hy. cbn in Hy. lia.
      * now apply ordered_app_r in Hord'.
  - intros z Hz.
    replace (sorted ++ [pivot])
      with ((firstn place sorted ++ skipn place sorted) ++ [pivot])
      by now rewrite firstn_skipn.
    rewrite !filter_app. cbn [filter].
    destruct (order z pivot =? 0) eqn:E; [|now rewrite app_nil_r].
    apply Z.eqb_eq in E.
    assert (filter (fun y => order z y =? 0) (skipn place sorted) = []) as ->.
    { apply filter_none. intros y Hy. apply Z.eqb_neq. intros E'.
      rewrite Forall_forall in Hafter. specialize (Hafter y Hy).
      rewrite (order_zero_class A order l order_consistent z pivot y)
        in Hafter; auto. lia. }
    now rewrite app_nil_r.
Qed.

Lemma binaryInsertionSort_keeps : forall rest sorted k,
  incl rest l -> incl sorted l -> ordered order sorted ->
  ordered order (binaryInsertionSort comparefn sorted rest k) /\
  (forall z, In z l ->
     filter (fun y => order z y =? 0)
            (binaryInsertionSort comparefn sorted rest k)
     = filter (fun y => order z y =? 0) (sorted ++ rest)).
Proof.
  induction rest as [|x rest IH]; intros sorted k Hr Hs Hord;
    cbn [binaryInsertionSort].
  - rewrite app_nil_r. split; [exact Hord | reflexivity].
  - assert (In x l) as Hx by (apply Hr; now left).
    destruct (binaryInsert_keeps x sorted k Hx Hs Hord) as [O F].
    pose proof (binaryInsert_permutes x sorted k) as P.
    destruct (binaryInsert comparefn x sorted k) as [sorted' k'].
    cbn [fst] in *.
    assert (incl sorted' l) as Hs'.
    { intros z Hz. apply Permutation_sym in P.
      destruct (Permutation_in _ P Hz) as [<- | Hz']; auto. }
    destruct (IH sorted' k'
                (fun z Hz => Hr z (or_intror Hz)) Hs' O) as [O' F'].
    split; [exact O'|]. intros z Hz.
    rewrite (F' z Hz), filter_app, (F z Hz), <- filter_app, <- app_assoc.
    reflexivity.
Qed.

End BinaryInsertion.

(** Binary insertion is an engine's sort. *)
#[export] Instance binaryEngine : Engine := {|
  arraySort := @binarySort;
  arraySort_permutes := fun A comparefn l =>
    binaryInsertionSort_permutes A comparefn l [] 0;
  arraySort_sorts := fun A comparefn order l Hagree Hcons =>
    binaryInsertionSort_keeps A comparefn order l Hagree Hcons l [] 0
      (incl_refl l) (incl_nil_l l) I
|}.

(** Sorting what is already in order changes nothing. *)
Lemma arraySort_ordered_id :
  forall (engine : Engine) (A : Type) (comparefn : nat -> A -> A -> num)
         (order : A -> A -> Z) (l : list A),
  (forall k a b, In a l -> In b l -> sortCompare (comparefn k a b) = order a b) ->
  consistentOn order l -> ordered order l ->
  arraySort comparefn l = l.
Proof.
  intros engine A comparefn order l Hagree Hcons Hord.
  destruct (arraySort_sorts A comparefn order l Hagree Hcons) as [O F].
  pose proof (arraySort_permutes A comparefn l) as P.
  symmetry.
  apply (stable_order_unique A order l Hcons); try assumption.
  - apply incl_refl.
  - intros x Hx. symmetry. now apply F.
Qed.

Lemma arraySort_In :
  forall (engine : Engine) (A : Type) (comparefn : nat -> A -> A -> num)
         (l : list A) x,
  In x (arraySort comparefn l) <-> In x l.
Proof.
  intros engine A comparefn l x.
  pose proof (arraySort_permutes A comparefn l) as P. split; intros H.
  - eapply Permutation_in; [apply Permutation_sym; exact P | exact H].
  - eapply Permutation_in; [exact P | exact H].
Qed.

Lemma length_arraySort :
  forall (engine : Engine) (A : Type) (comparefn : nat -> A -> A -> num)
         (l : list A),
  length (arraySort comparefn l) = length l.
Proof.
  intros engine A comparefn l. symmetry.
  apply Permutation_length, arraySort_permutes.
Qed.

(* ================================================================== *)
(** * Collations and the comparator                                    *)
(* ================================================================== *)

Lemma ordinalCompare_sym : forall a b,
  Z.sgn (ordinalCompare b a) = - Z.sgn (ordinalCompare a b).
Proof.
  induction a as [|x a IH]; destruct b as [|y b]; try reflexivity.
  cbn [ordinalCompare]. rewrite (N.compare_antisym (code x) (code y)).
  destruct (code x ?= code y)%N; cbn [CompOpp]; try reflexivity.
  apply IH.
Qed.

Lemma ordinalCompare_trans : forall a b c,
  ordinalCompare a b <= 0 -> ordinalCompare b c <= 0 ->
  ordinalCompare a c <= 0.
Proof.
  induction a as [|x a IH]; intros [|y b] [|z c]; cbn [ordinalCompare];
    try lia.
  destruct (N.compare_spec (code x) (code y)) as [Exy | Lxy | Gxy];
  destruct (N.compare_spec (code y) (code z)) as [Eyz | Lyz | Gyz];
  destruct (N.compare_spec (code x) (code z)) as [Exz | Lxz | Gxz];
    try lia.
  apply IH.
Qed.

(** Comparison by code units is a collation. *)
#[export] Instance ordinalCollator : Collator := {|
  localeCompare := ordinalCompare;
  localeCompare_sym := ordinalCompare_sym;
  localeCompare_trans := ordinalCompare_trans
|}.

Lemma sgn_sub_sym : forall a b : Z, Z.sgn (b - a) = - Z.sgn (a - b).
Proof.
  intros a b.
  destruct (Z.sgn_spec (a - b)) as [[? ->]|[[? ->]|[? ->]]];
  destruct (Z.sgn_spec (b - a)) as [[? ->]|[[? ->]|[? ->]]]; lia.
Qed.

(** Where the prices are settled, every call of the comparator answers as
    the order of the key at the first instant read. *)
Lemma comparable_agrees :
  forall (collator : Collator) clock key (l : list Product),
  comparable clock key l ->
  forall k a b, In a l -> In b l ->
    sortCompare (compareProducts (atCompare clock k) key a b)
    = keyOrder (fst (atCompare clock 0)) key a b.
Proof.
  intros collator clock key l H k a b Ha Hb. unfold keyOrder.
  destruct key; cbn [compareProducts fst snd]; try reflexivity;
    destruct (H a Ha) as [za Za]; destruct (H b Hb) as [zb Zb];
    destruct (Za k) as [A1 A2]; destruct (Zb k) as [B1 B2];
    destruct (Za O) as [A0 _]; destruct (Zb O) as [B0 _];
    rewrite ?A1, ?A2, ?B1, ?B2, ?A0, ?B0; reflexivity.
Qed.

Lemma comparable_consistent :
  forall (collator : Collator) clock key (l : list Product),
  comparable clock key l ->
  consistentOn (keyOrder (fst (atCompare clock 0)) key) l.
Proof.
  intros collator clock key l H. unfold keyOrder.
  destruct key; cbn [compareProducts fst snd sortCompare].
  - split.
    + intros a b _ _. apply localeCompare_sym.
    + intros a b c _ _ _. apply localeCompare_trans.
  - split.
    + intros a b Ha Hb.
      destruct (H a Ha) as [za Za]; destruct (H b Hb) as [zb Zb].
      destruct (Za O) as [-> _]; destruct (Zb O) as [-> _]. cbn.
      apply sgn_sub_sym.
    + intros a b c Ha Hb Hc.
      destruct (H a Ha) as [za Za]; destruct (H b Hb) as [zb Zb];
        destruct (H c Hc) as [zc Zc].
      destruct (Za O) as [-> _]; destruct (Zb O) as [-> _];
        destruct (Zc O) as [-> _]. cbn. lia.
  - split.
    + intros a b Ha Hb.
      destruct (H a Ha) as [za Za]; destruct (H b Hb) as [zb Zb].
      destruct (Za O) as [-> _]; destruct (Zb O) as [-> _]. cbn.
      apply sgn_sub_sym.
    + intros a b c Ha Hb Hc.
      destruct (H a Ha) as [za Za]; destruct (H b Hb) as [zb Zb];
        destruct (H c Hc) as [zc Zc].
      destruct (Za O) as [-> _]; destruct (Zb O) as [-> _];
        destruct (Zc O) as [-> _]. cbn. lia.
  - split.
    + intros a b _ _. apply localeCompare_sym.
    + intros a b c _ _ _ H1 H2. eapply localeCompare_trans; eassumption.
Qed.

Lemma pipeline_sorted :
  forall (collator : Collator) (engine : Engine) clock V ps,
  comparable clock (sortBy V) (kept clock V ps) ->
  ordered (keyOrder (fst (atCompare clock 0)) (sortBy V))
          (filteredAndSorted (pipeline clock V ps)) /\
  (forall x, In x (kept clock V ps) ->
     filter (fun y => keyOrder (fst (atCompare clock 0)) (sortBy V) x y =? 0)
            (filteredAndSorted (pipeline clock V ps))
     = filter (fun y => keyOrder (fst (atCompare clock 0)) (sortBy V) x y =? 0)
              (kept clock V ps)).
Proof.
  intros collator engine clock V ps H. unfold pipeline. cbn [filteredAndSorted].
  apply arraySort_sorts.
  - now apply comparable_agrees.
  - now apply comparable_consistent.
Qed.





(** The clock alone can unsettle the comparator: a product whose offer ends
    at instant 20 is cheaper than one of price 90 when read at 20 and dearer
    when read at 21. *)
Lemma comparator_follows_the_clock :
  compareProducts (20, 20) PriceLow
    (oneVariant (offerVariant 100 80 10 20
       {| variants_stock := 1; selling_price := Undefined;
          offer_price := Undefined; discount_start_date := None;
          discount_end_date := None; variants_values := None;
          condition := None |}) (sells "o" Undefined))
    (sells "p" (Number (Fin 90))) = Fin (-10) /\
  compareProducts (21, 21) PriceLow
    (oneVariant (offerVariant 100 80 10 20
       {| variants_stock := 1; selling_price := Undefined;
          offer_price := Undefined; discount_start_date := None;
          discount_end_date := None; variants_values := None;
          condition := None |}) (sells "o" Undefined))
    (sells "p" (Number (Fin 90))) = Fin 10.
Proof. split; reflexivity. Qed.

(* ================================================================== *)
(** * Pagination                                                       *)
(* ================================================================== *)

Lemma slice_window : forall (A : Type) (l : list A) start size,
  0 <= start -> 0 <= size ->
  slice l start (start + size)
  = firstn (Z.to_nat size) (skipn (Z.to_nat start) l).
Proof.
  intros A l start size Hs Hn. unfold slice.
  assert ((start <? 0) = false) as -> by (apply Z.ltb_ge; lia).
  assert ((start + size <? 0) = false) as -> by (apply Z.ltb_ge; lia).
  destruct (Z_lt_le_dec start (Z.of_nat (length l))) as [L | L].
  - rewrite (Z.min_l start) by lia.
    destruct (Z_le_gt_dec (start + size) (Z.of_nat (length l))) as [M | M].
    + rewrite Z.min_l by lia. f_equal. lia.
    + rewrite Z.min_r by lia.
      rewrite (firstn_all2 (n := Z.to_nat size)).
      * apply firstn_all2. rewrite length_skipn. lia.
      * rewrite length_skipn. lia.
  - rewrite (Z.min_r start) by lia.
    rewrite skipn_all2 by lia. rewrite skipn_all2 by lia.
    now rewrite !firstn_nil.
Qed.

Lemma length_slice_window : forall (A : Type) (l : list A) start size,
  0 <= start -> 0 <= size ->
  Z.of_nat (length (slice l start (start + size)))
  = Z.min size (Z.max 0 (Z.of_nat (length l) - start)).
Proof.
  intros A l start size Hs Hn. rewrite slice_window by assumption.
  rewrite length_firstn, length_skipn. lia.
Qed.

Lemma ceilDiv_bounds : forall n d,
  0 < d -> (ceilDiv n d - 1) * d < n <= ceilDiv n d * d.
Proof.
  intros n d Hd. unfold ceilDiv.
  pose proof (Z.div_mod (- n) d) as E.
  pose proof (Z.mod_pos_bound (- n) d Hd) as B.
  specialize (E ltac:(lia)). nia.
Qed.

(** C3: with 20 items per page and a page number from 1 on, the page shown
    is the window of 20 items that starts after the preceding pages, so its
    length is min (20, max (0, count - (page - 1) * 20)); the number of
    pages is the count divided by 20, rounded up; a page beyond it is
    empty. *)
Theorem pagination_window :
  forall (collator : Collator) (engine : Engine) (clock : Clock)
         (V : ViewState) (initialProducts : list Product),
  1 <= currentPage V ->
  let view := pipeline clock V initialProducts in
  let count := Z.of_nat (length (filteredAndSorted view)) in
  itemsPerPage = 20 /\
  Z.of_nat (length (paginatedProducts view))
  = Z.min itemsPerPage (Z.max 0 (count - (currentPage V - 1) * itemsPerPage)) /\
  paginatedProducts view
  = firstn 20 (skipn (Z.to_nat ((currentPage V - 1) * 20))
                     (filteredAndSorted view)) /\
  (totalPages view - 1) * itemsPerPage < count <= totalPages view * itemsPerPage /\
  (totalPages view < currentPage V -> paginatedProducts view = []).
Proof.
  intros collator engine clock V initialProducts Hp view count.
  set (filtered := filteredAndSorted view) in *.
  assert (paginatedProducts view
          = slice filtered ((currentPage V - 1) * itemsPerPage)
                  ((currentPage V - 1) * itemsPerPage + itemsPerPage)) as Hs
    by reflexivity.
  assert (totalPages view = ceilDiv count itemsPerPage) as Ht by reflexivity.
  assert (0 <= (currentPage V - 1) * itemsPerPage) as H0
    by (unfold itemsPerPage; lia).
  pose proof (ceilDiv_bounds count itemsPerPage eq_refl) as Hb.
  assert (Z.of_nat (length (paginatedProducts view))
          = Z.min itemsPerPage
              (Z.max 0 (count - (currentPage V - 1) * itemsPerPage))) as Hl.
  { rewrite Hs. apply length_slice_window; [assumption | discriminate]. }
  split; [reflexivity|]. split; [exact Hl|].
  split.
  { rewrite Hs. apply slice_window; [assumption | discriminate]. }
  split; [now rewrite Ht|].
  intros Hbeyond. apply length_zero_iff_nil.
  rewrite Ht in Hbeyond. unfold itemsPerPage in *. lia.
Qed.

Lemma pagination_window_witness :
  paginatedProducts
    (pipeline (stopped 0)
       {| sortBy := Newest; selectedCats := []; selectedSizes := [];
          searchQuery := []; currentPage := 2; priceRange := (0, 10000) |}
       [{| prod_id := Some (str "p1"); prod_name := Some (str "Kurti");
           category_group := None; variantsId := None |}])
  = [].
Proof.
  apply (pagination_window ordinalCollator binaryEngine (stopped 0)
    {| sortBy := Newest; selectedCats := []; selectedSizes := [];
       searchQuery := []; currentPage := 2; priceRange := (0, 10000) |}
    [{| prod_id := Some (str "p1"); prod_name := Some (str "Kurti");
        category_group := None; variantsId := None |}]).
  - cbn. lia.
  - vm_compute. reflexivity.
Defined.

(* ================================================================== *)
(** * The filter                                                       *)
(* ================================================================== *)

Lemma nonEmpty_true : forall (A : Type) (l : list A), nonEmpty l = true <-> l <> [].
Proof.
  intros A [|x l]; cbn; split; congruence.
Qed.

Lemma existsb_arrIncludes : forall selected ids,
  existsb (fun x => arrIncludes selected x) ids = true ->
  exists x, In x ids /\ In x selected.
Proof.
  intros selected ids H. apply existsb_exists in H as [x [Hx Hs]].
  exists x. split; [assumption | now apply arrIncludes_In].
Qed.

Lemma arrayFilter_In : forall (A : Type) (f : nat -> A -> bool) l i x,
  In x (arrayFilter f i l) <->
  exists j, nth_error l j = Some x /\ f (i + j)%nat x = true.
Proof.
  intros A f. induction l as [|y l IH]; intros i x; cbn [arrayFilter].
  - split; [intros [] | intros [[|j] [H _]]; discriminate].
  - assert (In x (arrayFilter f (S i) l) <->
            exists j, nth_error l j = Some x /\ f (i + S j)%nat x = true)
      as IH'.
    { rewrite IH. split; intros [j [H1 H2]]; exists j; split; auto;
        now replace (i + S j)%nat with (S i + j)%nat in * by lia. }
    destruct (f i y) eqn:E.
    + split.
      * intros [<- | H].
        -- exists O. split; [reflexivity | now rewrite Nat.add_0_r].
        -- apply IH' in H as [j [H1 H2]]. exists (S j). now split.
      * intros [[|j] [H1 H2]].
        -- left. cbn in H1. congruence.
        -- right. apply IH'. exists j. now split.
    + split.
      * intros H. apply IH' in H as [j [H1 H2]]. exists (S j). now split.
      * intros [[|j] [H1 H2]].
        -- cbn in H1. injection H1 as <-. rewrite Nat.add_0_r in H2.
           congruence.
        -- apply IH'. exists j. now split.
Qed.

Lemma length_arrayFilter : forall (A : Type) (f : nat -> A -> bool) l i,
  (length (arrayFilter f i l) <= length l)%nat.
Proof.
  intros A f. induction l as [|y l IH]; intros i; cbn [arrayFilter length];
    [lia|].
  specialize (IH (S i)). destruct (f i y); cbn [length]; lia.
Qed.

Lemma arrayFilter_all : forall (A : Type) (f : nat -> A -> bool) l i,
  (forall j x, nth_error l j = Some x -> f (i + j)%nat x = true) ->
  arrayFilter f i l = l.
Proof.
  intros A f. induction l as [|y l IH]; intros i H; [reflexivity|].
  cbn [arrayFilter].
  assert (f i y = true) as ->
    by (rewrite <- (Nat.add_0_r i); now apply (H O)).
  f_equal. apply IH. intros j x Hj.
  replace (S i + j)%nat with (i + S j)%nat by lia. now apply (H (S j)).
Qed.

Lemma kept_In : forall clock V ps p,
  In p (kept clock V ps) <->
  exists i, nth_error ps i = Some p /\ keep (atFilter clock i) V p = true.
Proof. intros clock V ps p. unfold kept. now rewrite arrayFilter_In. Qed.

Lemma range_test : forall now V p,
  num_ltb (price now p) (Fin (fst (priceRange V)))
  || num_gtb (price now p) (Fin (snd (priceRange V))) = false <->
  pricePasses now V p.
Proof.
  intros now V p. unfold pricePasses, num_gtb.
  destruct (price now p) as [z|]; cbn [num_ltb].
  - rewrite orb_false_iff, !Z.ltb_ge. split.
    + intros [L U] z' E. injection E as <-. lia.
    + intros H. specialize (H z eq_refl). lia.
  - split; [intros _ z E; discriminate | reflexivity].
Qed.

Lemma keep_clauses : forall now V p,
  keep now V p = true ->
  pricePasses now V p /\ searchClause V p /\ categoryClause V p /\ sizeClause V p.
Proof.
  intros now V p. unfold keep.
  destruct (num_ltb (price now p) (Fin (fst (priceRange V)))
            || num_gtb (price now p) (Fin (snd (priceRange V)))) eqn:E1;
    [discriminate|].
  destruct (nonEmpty (trim (searchQuery V))
            && negb (includes (searchIn p) (toLowerCase (searchQuery V))))
    eqn:E2; [discriminate|].
  destruct (nonEmpty (selectedCats V)
            && negb (existsb (fun id => arrIncludes (selectedCats V) id)
                             (prodCatIds p))) eqn:E3; [discriminate|].
  destruct (nonEmpty (selectedSizes V)
            && negb (existsb (fun sz => arrIncludes (selectedSizes V) sz)
                             (prodSizes p))) eqn:E4; [discriminate|].
  intros _. split; [now apply range_test|]. split; [|split].
  - intros _. destruct (trim (searchQuery V)) as [|c t] eqn:T.
    + exists [], (searchIn p). reflexivity.
    + rewrite <- T. cbn in E2. apply negb_false_iff in E2.
      apply includes_spec in E2.
      eapply occursIn_trans; [|exact E2].
      apply occursIn_toLowerCase, trim_occurs.
  - intros Hne. apply nonEmpty_true in Hne. rewrite Hne in E3. cbn in E3.
    apply negb_false_iff in E3. now apply existsb_arrIncludes.
  - intros Hne. apply nonEmpty_true in Hne. rewrite Hne in E4. cbn in E4.
    apply negb_false_iff in E4. now apply existsb_arrIncludes.
Qed.

(** C2 (as the code has it): the filtered list is no longer than the
    product list, and each of its products stands in the product list and
    meets the four clauses as the filter tests them: its effective price,
    read at the instant the filter tested it, lies within the inclusive
    range whenever that price is a number (a price that is not a number
    passes the range test); with a non-empty search text, the trimmed
    lower-cased query occurs in the lower-cased, space-joined name, tag
    names and variant conditions; with selected categories, one of its tag
    ids is selected; with selected sizes, one of its variant sizes is
    selected.  For every host sort and every clock. *)
Theorem filtered_meets_clauses :
  forall (collator : Collator) (engine : Engine) (clock : Clock)
         (V : ViewState) (initialProducts : list Product),
  let filtered := filteredAndSorted (pipeline clock V initialProducts) in
  (length filtered <= length initialProducts)%nat /\
  Forall (fun p => exists i,
            nth_error initialProducts i = Some p /\
            pricePasses (atFilter clock i) V p /\ searchClause V p /\
            categoryClause V p /\ sizeClause V p) filtered.
Proof.
  intros collator engine clock V initialProducts filtered.
  unfold filtered, pipeline. cbn [filteredAndSorted]. split.
  - rewrite length_arraySort. apply length_arrayFilter.
  - apply Forall_forall. intros p Hp.
    apply arraySort_In in Hp. apply kept_In in Hp as [i [Hi Hk]].
    exists i. split; [exact Hi|]. now apply keep_clauses.
Qed.

(** C2 (as stated) fails: a product whose selling price is a text that
    reads as no number has the effective price NaN; both comparisons of the
    range test are false for it, so it is listed under the range 5000 to
    6000 although its price is not within that range. *)
Lemma unreadable_price_passes_range :
  let V := plainView Newest 5000 6000 in
  let p := sells "x" (Text NaN) in
  filteredAndSorted (@pipeline ordinalCollator binaryEngine (stopped 0) V [p])
  = [p] /\
  price 0 p = NaN /\
  ~ priceClause 0 V p.
Proof.
  split; [vm_compute; reflexivity|]. split; [vm_compute; reflexivity|].
  intros [z [H _]]. vm_compute in H. discriminate.
Qed.

(* ================================================================== *)
(** * The pipeline on the store                                        *)
(* ================================================================== *)

Lemma deref_alloc_old : forall st a r,
  (r < length st)%nat -> deref (snd (alloc a st)) r = deref st r.
Proof.
  intros st a r H. unfold deref, alloc. cbn. now apply nth_error_app1.
Qed.

Lemma deref_alloc_new : forall st a,
  deref (snd (alloc a st)) (fst (alloc a st)) = Some a.
Proof.
  intros st a. unfold deref, alloc. cbn.
  rewrite nth_error_app2 by lia. now rewrite Nat.sub_diag.
Qed.

Lemma length_assign : forall r a st, length (assign r a st) = length st.
Proof.
  intros r a st. revert r.
  induction st as [|x st IH]; intros [|r]; cbn; try reflexivity.
  now rewrite IH.
Qed.

Lemma deref_assign_same : forall st r a,
  (r < length st)%nat -> deref (assign r a st) r = Some a.
Proof.
  unfold deref. induction st as [|x st IH]; intros [|r] a H; cbn in *;
    try lia; [reflexivity|].
  apply IH. lia.
Qed.

Lemma deref_assign_other : forall st r r' a,
  r' <> r -> deref (assign r a st) r' = deref st r'.
Proof.
  unfold deref. induction st as [|x st IH]; intros [|r] [|r'] a H; cbn;
    try reflexivity; try congruence.
  apply IH. congruence.
Qed.

Lemma deref_Some_lt : forall st r a, deref st r = Some a -> (r < length st)%nat.
Proof.
  intros st r a H. apply nth_error_Some. unfold deref in H. congruence.
Qed.

(** C10: run on a store, the pipeline succeeds, writes only to arrays it
    has allocated itself (the sort reorders the array made by the filter),
    and leaves the product array and every other array of the store as
    they were; the arrays it returns hold what the functional pipeline
    computes.  For every host sort and every clock. *)
Theorem pipeline_leaves_input_unchanged :
  forall (collator : Collator) (engine : Engine) (clock : Clock)
         (V : ViewState) (st : Store)
         (initialProducts : ref) (products : list Product),
  deref st initialProducts = Some products ->
  exists out st',
    pipelineOnStore clock V initialProducts st = Some (out, st') /\
    deref st' initialProducts = Some products /\
    (forall r, (r < length st)%nat -> deref st' r = deref st r) /\
    (length st <= filteredRef out)%nat /\
    (length st <= paginatedRef out)%nat /\
    deref st' (filteredRef out)
    = Some (filteredAndSorted (pipeline clock V products)) /\
    deref st' (paginatedRef out)
    = Some (paginatedProducts (pipeline clock V products)) /\
    pages out = totalPages (pipeline clock V products).
Proof.
  intros collator engine clock V st r0 products H0.
  pose proof (deref_Some_lt st r0 products H0) as Hlt.
  set (passed := kept clock V products).
  set (sorted :=
         arraySort
           (fun k a b => compareProducts (atCompare clock k) (sortBy V) a b)
           passed).
  set (st1 := snd (alloc passed st)).
  set (st2 := assign (length st) sorted st1).
  set (start := (currentPage V - 1) * itemsPerPage).
  set (shown := slice sorted start (start + itemsPerPage)).
  assert (deref st1 (length st) = Some passed) as D1
    by apply deref_alloc_new.
  assert (length st1 = S (length st)) as L1.
  { unfold st1, alloc. cbn. rewrite length_app. cbn. lia. }
  assert (deref st2 (length st) = Some sorted) as D2.
  { apply deref_assign_same. lia. }
  assert (length st2 = S (length st)) as L2.
  { unfold st2. now rewrite length_assign. }
  exists {| filteredRef := length st; paginatedRef := length st2;
            pages := ceilDiv (Z.of_nat (length sorted)) itemsPerPage |}.
  exists (snd (alloc shown st2)).
  assert (forall r, (r < length st)%nat ->
                    deref (snd (alloc shown st2)) r = deref st r) as Hframe.
  { intros r Hr. rewrite deref_alloc_old by lia.
    unfold st2. rewrite deref_assign_other by lia.
    unfold st1. now apply deref_alloc_old. }
  split.
  { unfold pipelineOnStore, andThen, arrFilter, arrSort, arrLength, arrSlice,
      pure.
    rewrite H0. cbn [alloc fst snd].
    change (arrayFilter (fun i product => keep (atFilter clock i) V product)
                        0 products) with passed.
    change (st ++ [passed]) with st1. rewrite D1.
    fold sorted. fold st2. rewrite D2. cbn iota. rewrite D2.
    reflexivity. }
  split; [rewrite Hframe by assumption; exact H0|].
  split; [exact Hframe|].
  cbn [filteredRef paginatedRef pages].
  split; [lia|]. split; [lia|].
  split.
  { rewrite deref_alloc_old by lia. exact D2. }
  split; [apply deref_alloc_new | reflexivity].
Qed.

Lemma pipeline_leaves_input_unchanged_witness :
  exists out st',
    @pipelineOnStore ordinalCollator binaryEngine (stopped 0)
      {| sortBy := PriceHigh; selectedCats := []; selectedSizes := [];
         searchQuery := []; currentPage := 1; priceRange := (0, 10000) |}
      O
      [[{| prod_id := Some (str "p1"); prod_name := Some (str "Kurti");
           category_group := None; variantsId := None |};
        {| prod_id := Some (str "p2"); prod_name := Some (str "Saree");
           category_group := None;
           variantsId := Some
             [{| variants_stock := 2; selling_price := Number (Fin 900);
                 offer_price := Undefined; discount_start_date := None;
                 discount_end_date := None; variants_values := None;
                 condition := None |}] |}]]
    = Some (out, st') /\
    deref st' O
    = Some
      [{| prod_id := Some (str "p1"); prod_name := Some (str "Kurti");
          category_group := None; variantsId := None |};
       {| prod_id := Some (str "p2"); prod_name := Some (str "Saree");
          category_group := None;
          variantsId := Some
            [{| variants_stock := 2; selling_price := Number (Fin 900);
                offer_price := Undefined; discount_start_date := None;
                discount_end_date := None; variants_values := None;
                condition := None |}] |}].
Proof.
  destruct (pipeline_leaves_input_unchanged ordinalCollator binaryEngine
    (stopped 0)
    {| sortBy := PriceHigh; selectedCats := []; selectedSizes := [];
       searchQuery := []; currentPage := 1; priceRange := (0, 10000) |}
    [[{| prod_id := Some (str "p1"); prod_name := Some (str "Kurti");
         category_group := None; variantsId := None |};
      {| prod_id := Some (str "p2"); prod_name := Some (str "Saree");
         category_group := None;
         variantsId := Some
           [{| variants_stock := 2; selling_price := Number (Fin 900);
               offer_price := Undefined; discount_start_date := None;
               discount_end_date := None; variants_values := None;
               condition := None |}] |}]]
    O _ eq_refl) as [out [st' [Hrun [Hsame _]]]].
  exists out, st'. split; assumption.
Defined.

(* ================================================================== *)
(** * The slug normal form                                             *)
(* ================================================================== *)

(** Facts about single code units, settled by running through them. *)
Ltac every_unit c :=
  destruct c as [[] [] [] [] [] [] [] []]; vm_compute;
  try reflexivity; try discriminate; auto.

Lemma lower_unit_not_capital : forall c, between 65 90 (lower_unit c) = false.
Proof. intros c. every_unit c. Qed.

Lemma lower_unit_idem : forall c, lower_unit (lower_unit c) = lower_unit c.
Proof. intros c. every_unit c. Qed.

Lemma word_not_capital_slugChar : forall c,
  between 65 90 c = false -> notWordOrHyphen c = false -> slugChar c = true.
Proof. intros c. every_unit c. Qed.

Lemma slugChar_lower : forall c, slugChar c = true -> lower_unit c = c.
Proof. intros c. every_unit c. Qed.

Lemma slugChar_not_space : forall c, slugChar c = true -> isSpace c = false.
Proof. intros c. every_unit c. Qed.

Lemma slugChar_kept : forall c, slugChar c = true -> notWordOrHyphen c = false.
Proof. intros c. every_unit c. Qed.

Lemma slugChar_not_capital : forall c, slugChar c = true -> between 65 90 c = false.
Proof. intros c. every_unit c. Qed.

Lemma isHyphen_eq : forall c, isHyphen c = true -> c = "-"%char.
Proof. intros c. every_unit c. Qed.

Lemma toLowerCase_idem : forall s, toLowerCase (toLowerCase s) = toLowerCase s.
Proof.
  intros s. unfold toLowerCase. rewrite map_map.
  apply map_ext. apply lower_unit_idem.
Qed.

(** ** Runs *)

Lemma replaceRuns_Forall : forall (Q : ascii -> Prop) p r b s,
  Forall Q r -> Forall Q s -> Forall Q (replaceRuns p r b s).
Proof.
  intros Q p r b s Hr Hs. revert b.
  induction Hs as [|c t Hc Ht IH]; intros b; cbn; [constructor|].
  destruct (p c).
  - destruct b; [apply IH|]. apply Forall_app. split; [exact Hr | apply IH].
  - constructor; [exact Hc | apply IH].
Qed.

Lemma replaceRuns_deletes : forall p b s,
  Forall (fun c => p c = false) (replaceRuns p [] b s).
Proof.
  intros p b s. revert b. induction s as [|c t IH]; intros b; cbn;
    [constructor|].
  destruct (p c) eqn:E.
  - destruct b; apply IH.
  - constructor; [exact E | apply IH].
Qed.

Lemma replaceRuns_none : forall p r b s,
  Forall (fun c => p c = false) s -> replaceRuns p r b s = s.
Proof.
  intros p r b s H. revert b.
  induction H as [|c t Hc Ht IH]; intros b; cbn; [reflexivity|].
  rewrite Hc. now rewrite IH.
Qed.

Lemma replaceRuns2_hyphens : forall b s,
  replaceRuns2 isHyphen (str "-") b s = replaceRuns isHyphen (str "-") b s.
Proof.
  intros b s. revert b. induction s as [|c t IH]; intros b; [reflexivity|].
  cbn [replaceRuns2 replaceRuns].
  destruct (isHyphen c) eqn:Hc.
  - destruct b; [apply IH|].
    destruct t as [|d t'].
    + apply isHyphen_eq in Hc. now subst c.
    + destruct (isHyphen d) eqn:Hd.
      * now rewrite IH.
      * rewrite IH. apply isHyphen_eq in Hc. subst c.
        cbn [replaceRuns]. rewrite Hd. reflexivity.
  - now rewrite IH.
Qed.

Lemma replaceRuns_collapses : forall p h b s,
  p h = true ->
  noRepeat p (replaceRuns p [h] b s) = true /\
  (b = true -> startsIn p (replaceRuns p [h] b s) = false).
Proof.
  intros p h b s Hh. revert b.
  induction s as [|c t IH]; intros b; cbn [replaceRuns].
  - split; reflexivity.
  - destruct (p c) eqn:Hc.
    + destruct b.
      * apply IH.
      * destruct (IH true) as [N S]. split; [|discriminate].
        cbn. rewrite Hh, (S eq_refl), N. reflexivity.
    + destruct (IH false) as [N _]. split.
      * cbn [noRepeat]. now rewrite Hc, N.
      * intros _. cbn. exact Hc.
Qed.

Lemma replaceRuns_collapsed : forall p h b s,
  (forall c, p c = true -> c = h) ->
  noRepeat p s = true -> (b = true -> startsIn p s = false) ->
  replaceRuns p [h] b s = s.
Proof.
  intros p h b s Hh. revert b.
  induction s as [|c t IH]; intros b N S; [reflexivity|].
  cbn [replaceRuns]. cbn [noRepeat] in N.
  apply andb_true_iff in N as [N1 N2].
  destruct (p c) eqn:Hc.
  - destruct b; [cbn in S; rewrite (S eq_refl) in Hc; discriminate|].
    cbn in N1. apply negb_true_iff in N1.
    rewrite IH by (try assumption; intros _; exact N1).
    cbn. now rewrite (Hh c Hc).
  - rewrite IH; [reflexivity | assumption | discriminate].
Qed.

Lemma startsIn_app : forall p a b,
  a <> [] -> startsIn p (a ++ b) = startsIn p a.
Proof. intros p [|c a] b H; [contradiction | reflexivity]. Qed.

Lemma noRepeat_app_l : forall p a b, noRepeat p (a ++ b) = true -> noRepeat p a = true.
Proof.
  intros p a b. induction a as [|c a IH]; intros H; [reflexivity|].
  cbn [app noRepeat] in *. apply andb_true_iff in H as [H1 H2].
  rewrite (IH H2), andb_true_r.
  destruct a as [|d a]; [cbn; now rewrite andb_false_r | exact H1].
Qed.

Lemma noRepeat_app_r : forall p a b, noRepeat p (a ++ b) = true -> noRepeat p b = true.
Proof.
  intros p a b. induction a as [|c a IH]; intros H; [exact H|].
  cbn [app noRepeat] in H. apply andb_true_iff in H as [_ H]. now apply IH.
Qed.

(** ** Leading and trailing characters *)

Lemma startsIn_dropWhile : forall p s, startsIn p (dropWhile p s) = false.
Proof.
  intros p. induction s as [|c t IH]; [reflexivity|].
  cbn [dropWhile]. destruct (p c) eqn:E; [exact IH | exact E].
Qed.

Lemma dropWhile_none : forall p s, startsIn p s = false -> dropWhile p s = s.
Proof. intros p [|c t] H; [reflexivity|]. cbn in *. now rewrite H. Qed.

Lemma endsIn_dropWhileEnd : forall p s, endsIn p (dropWhileEnd p s) = false.
Proof.
  intros p s. unfold endsIn, dropWhileEnd. rewrite rev_involutive.
  apply startsIn_dropWhile.
Qed.

Lemma dropWhileEnd_none : forall p s, endsIn p s = false -> dropWhileEnd p s = s.
Proof.
  intros p s H. unfold dropWhileEnd, endsIn in *.
  rewrite dropWhile_none by exact H. apply rev_involutive.
Qed.

Lemma startsIn_dropWhileEnd : forall p s,
  startsIn p s = false -> startsIn p (dropWhileEnd p s) = false.
Proof.
  intros p s H. destruct (dropWhileEnd_prefix p s) as [d Hd].
  destruct (dropWhileEnd p s) as [|c t] eqn:E; [reflexivity|].
  rewrite Hd in H. exact H.
Qed.

Lemma Forall_dropWhile : forall (Q : ascii -> Prop) p s,
  Forall Q s -> Forall Q (dropWhile p s).
Proof.
  intros Q p s H. destruct (dropWhile_suffix p s) as [d Hd].
  rewrite Hd in H. apply Forall_app in H. tauto.
Qed.

Lemma Forall_dropWhileEnd : forall (Q : ascii -> Prop) p s,
  Forall Q s -> Forall Q (dropWhileEnd p s).
Proof.
  intros Q p s H. destruct (dropWhileEnd_prefix p s) as [d Hd].
  rewrite Hd in H. apply Forall_app in H. tauto.
Qed.

Lemma noRepeat_dropWhile : forall p q s,
  noRepeat p s = true -> noRepeat p (dropWhile q s) = true.
Proof.
  intros p q s H. destruct (dropWhile_suffix q s) as [d Hd].
  rewrite Hd in H. now apply noRepeat_app_r in H.
Qed.

Lemma noRepeat_dropWhileEnd : forall p q s,
  noRepeat p s = true -> noRepeat p (dropWhileEnd q s) = true.
Proof.
  intros p q s H. destruct (dropWhileEnd_prefix q s) as [d Hd].
  rewrite Hd in H. now apply noRepeat_app_l in H.
Qed.

Lemma isSlug_parts : forall s,
  isSlug s = true <->
  Forall (fun c => slugChar c = true) s /\ noRepeat isHyphen s = true /\
  startsIn isHyphen s = false /\ endsIn isHyphen s = false.
Proof.
  intros s. unfold isSlug.
  rewrite !andb_true_iff, !negb_true_iff, forallb_forall, Forall_forall.
  tauto.
Qed.

Lemma toLowerCase_Forall : forall s,
  Forall (fun c => between 65 90 c = false) (toLowerCase s).
Proof.
  intros s. unfold toLowerCase. apply Forall_map, Forall_forall.
  intros c _. apply lower_unit_not_capital.
Qed.

Lemma Forall_and_bool : forall (P Q : ascii -> Prop) s,
  Forall P s -> Forall Q s -> Forall (fun c => P c /\ Q c) s.
Proof.
  intros P Q s HP HQ. rewrite Forall_forall in *. intros c Hc.
  split; [now apply HP | now apply HQ].
Qed.

Lemma createSlug_isSlug : forall name,
  Forall (fun c => slugChar c = true) (createSlug name) /\
  noRepeat isHyphen (createSlug name) = true /\
  startsIn isHyphen (createSlug name) = false /\
  endsIn isHyphen (createSlug name) = false.
Proof.
  intros name. unfold createSlug.
  set (s1 := toLowerCase name).
  set (s2 := replaceRuns isSpace (str "-") false s1).
  set (s3 := replaceRuns notWordOrHyphen (str "") false s2).
  set (s4 := replaceRuns2 isHyphen (str "-") false s3).
  assert (Forall (fun c => between 65 90 c = false) s2) as C2.
  { apply replaceRuns_Forall; [repeat constructor | apply toLowerCase_Forall]. }
  assert (Forall (fun c => slugChar c = true) s3) as C3.
  { pose proof (replaceRuns_deletes notWordOrHyphen false s2) as D.
    assert (Forall (fun c => between 65 90 c = false) s3) as K
      by (apply replaceRuns_Forall; [constructor | exact C2]).
    fold s3 in D. pose proof (Forall_and_bool _ _ s3 K D) as KD.
    eapply Forall_impl; [|exact KD].
    intros c [H1 H2]. now apply word_not_capital_slugChar. }
  assert (Forall (fun c => slugChar c = true) s4) as C4.
  { unfold s4. rewrite replaceRuns2_hyphens.
    apply replaceRuns_Forall; [repeat constructor | exact C3]. }
  assert (noRepeat isHyphen s4 = true) as N4.
  { unfold s4. rewrite replaceRuns2_hyphens.
    apply (replaceRuns_collapses isHyphen "-"%char false s3 eq_refl). }
  repeat split.
  - apply Forall_dropWhileEnd, Forall_dropWhile, C4.
  - apply noRepeat_dropWhileEnd, noRepeat_dropWhile, N4.
  - apply startsIn_dropWhileEnd, startsIn_dropWhile.
  - apply endsIn_dropWhileEnd.
Qed.

(** X1: whatever the name, its slug is in slug form: only the characters
    a-z, 0-9, underscore and hyphen, no two hyphens in a row, and no hyphen
    at either end. *)
Theorem createSlug_normal_form : forall name, isSlug (createSlug name) = true.
Proof.
  intros name. apply isSlug_parts. apply createSlug_isSlug.
Qed.

Lemma toLowerCase_slug : forall s,
  Forall (fun c => slugChar c = true) s -> toLowerCase s = s.
Proof.
  intros s H. unfold toLowerCase. induction H as [|c t Hc Ht IH]; cbn;
    [reflexivity|].
  now rewrite IH, (slugChar_lower c Hc).
Qed.

Lemma createSlug_fixes_slugs : forall s, isSlug s = true -> createSlug s = s.
Proof.
  intros s H. apply isSlug_parts in H as [C [N [S E]]].
  unfold createSlug. rewrite (toLowerCase_slug s C).
  rewrite (replaceRuns_none isSpace (str "-") false s).
  2:{ eapply Forall_impl; [|exact C]. apply slugChar_not_space. }
  rewrite (replaceRuns_none notWordOrHyphen (str "") false s).
  2:{ eapply Forall_impl; [|exact C]. apply slugChar_kept. }
  rewrite replaceRuns2_hyphens. change (str "-") with ["-"%char].
  rewrite (replaceRuns_collapsed isHyphen "-"%char false s isHyphen_eq N)
    by discriminate.
  rewrite (dropWhile_none isHyphen s S).
  now apply dropWhileEnd_none.
Qed.

(** X2: [createSlug] is idempotent, and it leaves every string in slug form
    as it is. *)
Theorem createSlug_idempotent : forall name,
  createSlug (createSlug name) = createSlug name /\
  (forall s, isSlug s = true -> createSlug s = s).
Proof.
  intros name. split.
  - apply createSlug_fixes_slugs, isSlug_parts, createSlug_isSlug.
  - apply createSlug_fixes_slugs.
Qed.

Lemma createSlug_idempotent_witness :
  createSlug (str "summer-sale_2024") = str "summer-sale_2024".
Proof.
  apply (proj2 (createSlug_idempotent (str "Summer Sale"))).
  vm_compute. reflexivity.
Defined.

(* ================================================================== *)
(** * Resolving a category's own slug                                  *)
(* ================================================================== *)

Lemma createSlug_lower : forall name,
  toLowerCase (createSlug name) = createSlug name.
Proof.
  intros name. apply toLowerCase_slug. apply createSlug_isSlug.
Qed.

(** X3: a link built from the slug of a listed category always resolves: the
    resolver returns the first category of the list with that slug, which
    is the category itself when no other category shares its slug; and the
    same slug written in another letter case resolves alike. *)
Theorem own_slug_resolves : forall c categories,
  In c categories ->
  (exists c' before after,
     findMainCategory (createSlug (cat_name c)) categories = Some c' /\
     categories = before ++ c' :: after /\
     createSlug (cat_name c') = createSlug (cat_name c) /\
     Forall (fun x => createSlug (cat_name x) <> createSlug (cat_name c))
            before) /\
  ((forall x, In x categories ->
      createSlug (cat_name x) = createSlug (cat_name c) -> x = c) ->
   findMainCategory (createSlug (cat_name c)) categories = Some c) /\
  (forall slug, toLowerCase slug = createSlug (cat_name c) ->
     findMainCategory slug categories
     = findMainCategory (createSlug (cat_name c)) categories).
Proof.
  intros c categories Hin.
  assert (exists c' before after,
     findMainCategory (createSlug (cat_name c)) categories = Some c' /\
     categories = before ++ c' :: after /\
     createSlug (cat_name c') = createSlug (cat_name c) /\
     Forall (fun x => createSlug (cat_name x) <> createSlug (cat_name c))
            before) as Hfirst.
  { unfold findMainCategory. rewrite createSlug_lower.
    pose proof (find_first
      (fun cat => streqb (createSlug (cat_name cat)) (createSlug (cat_name c)))
      categories) as H.
    destruct (find _ categories) as [c'|].
    - destruct H as [b [a [Hl [Hc Hb]]]]. exists c', b, a.
      repeat split; [exact Hl | now apply streqb_eq |].
      now apply Forall_slug_mismatch.
    - rewrite Forall_forall in H. specialize (H c Hin). cbn in H.
      rewrite streqb_refl in H. discriminate. }
  split; [exact Hfirst|]. split.
  - intros Huniq. destruct Hfirst as [c' [b [a [Hf [Hl [Hs _]]]]]].
    rewrite Hf. f_equal. apply Huniq; [|exact Hs].
    rewrite Hl. apply in_or_app. right. now left.
  - intros slug Hs. unfold findMainCategory.
    now rewrite Hs, createSlug_lower.
Qed.

Lemma own_slug_resolves_witness :
  findMainCategory (str "T-SHIRT")
    [mkCategory (str "c0") (str "Pants") None;
     mkCategory (str "c1") (str "T Shirt") None]
  = findMainCategory (createSlug (str "T Shirt"))
    [mkCategory (str "c0") (str "Pants") None;
     mkCategory (str "c1") (str "T Shirt") None].
Proof.
  apply (own_slug_resolves (mkCategory (str "c1") (str "T Shirt") None)
    [mkCategory (str "c0") (str "Pants") None;
     mkCategory (str "c1") (str "T Shirt") None]).
  - right. left. reflexivity.
  - vm_compute. reflexivity.
Defined.

(* ================================================================== *)
(** * The business and the props of the server component               *)
(* ================================================================== *)

(** X4: from an array of businesses the server takes the first one that
    has categories; one without categories is taken only when it is the
    first of the array and no business has any; nothing is taken only from
    the empty array. *)
Theorem selectBusiness_prefers_categories : forall l,
  match selectBusiness (ManyBusinesses l) with
  | Some b =>
      exists before after,
        l = before ++ b :: after /\
        Forall (fun x => hasCategories x = false) before /\
        (hasCategories b = false ->
         before = [] /\ Forall (fun x => hasCategories x = false) l)
  | None => l = []
  end.
Proof.
  intros l. cbn [selectBusiness].
  pose proof (find_first hasCategories l) as H.
  destruct (find hasCategories l) as [b|].
  - destruct H as [bf [af [Hl [Hb Hbf]]]]. exists bf, af.
    repeat split; try assumption; congruence.
  - destruct l as [|b rest]; [reflexivity|]. cbn.
    exists [], rest. repeat split; [constructor | exact H].
Qed.

(** X5: the category handed to the page is always one of the categories of
    the business handed to the page, its normalised name is the requested
    slug in lower case, and the id handed over is its id; without a
    category there is no id. *)
Theorem server_category_of_business : forall slug pageParam limitParam data,
  let props := MainCategoryPageServer slug pageParam limitParam data in
  match props_mainCategory props with
  | Some cat =>
      exists b cs,
        props_business props = Some b /\ biz_categories b = Some cs /\
        In cat cs /\ createSlug (cat_name cat) = toLowerCase slug /\
        props_mainCategoryId props = Some (cat_id cat)
  | None => props_mainCategoryId props = None
  end.
Proof.
  intros slug pageParam limitParam data. cbn.
  destruct (selectBusiness data) as [b|]; [|reflexivity]. cbn.
  destruct (biz_categories b) as [cs|] eqn:Hcs; [|reflexivity].
  destruct (findMainCategory slug cs) as [cat|] eqn:Hf; [|reflexivity].
  exists b, cs. unfold findMainCategory in Hf.
  apply find_some in Hf as [Hin Hs]. apply streqb_eq in Hs.
  now repeat split.
Qed.

(* ================================================================== *)
(** * Decimal numerals as pagination seeds                             *)
(* ================================================================== *)

Lemma code_digitChar : forall d, 0 <= d <= 9 -> code (digitChar d) = (48 + Z.to_N d)%N.
Proof.
  intros d Hd. unfold code, digitChar. apply N_ascii_embedding. lia.
Qed.

Lemma digitChar_digit : forall d,
  0 <= d <= 9 ->
  isDecimalDigit (digitChar d) = true /\ digitValue (digitChar d) = Some d.
Proof.
  intros d Hd. unfold isDecimalDigit, digitValue, between.
  rewrite (code_digitChar d Hd).
  assert ((48 <=? 48 + Z.to_N d)%N = true) as -> by (apply N.leb_le; lia).
  assert ((48 + Z.to_N d <=? 57)%N = true) as -> by (apply N.leb_le; lia).
  cbn [andb]. split; [reflexivity|]. f_equal. lia.
Qed.

Lemma digitValue_digit : forall c,
  isDecimalDigit c = true ->
  digitValue c = Some (Z.of_N (code c) - 48) /\ 0 <= Z.of_N (code c) - 48 <= 9.
Proof.
  intros c H. unfold digitValue. unfold isDecimalDigit in H. rewrite H.
  split; [reflexivity|]. unfold between in H.
  apply andb_true_iff in H as [L U]. apply N.leb_le in L, U. lia.
Qed.

Lemma digitsPrefix_digits : forall ds a,
  Forall (fun c => isDecimalDigit c = true) ds ->
  digitsPrefix 10 (Some a) ds = Some (horner a ds).
Proof.
  induction ds as [|c ds IH]; intros a H; [reflexivity|].
  inversion H as [|? ? Hc Hds]; subst.
  destruct (digitValue_digit c Hc) as [Hv Hr].
  cbn [digitsPrefix]. rewrite Hv.
  assert ((Z.of_N (code c) - 48 <? 10) = true) as -> by (apply Z.ltb_lt; lia).
  rewrite IH by assumption. reflexivity.
Qed.

Lemma digitsOf_step : forall fuel n acc,
  digitsOf (S fuel) n acc
  = if n / 10 =? 0 then digitChar (n mod 10) :: acc
    else digitsOf fuel (n / 10) (digitChar (n mod 10) :: acc).
Proof. reflexivity. Qed.

Lemma digitsOf_spec : forall fuel n acc,
  0 <= n < 2 ^ Z.of_nat (S fuel) ->
  exists ds,
    digitsOf (S fuel) n acc = ds ++ acc /\ ds <> [] /\
    Forall (fun c => isDecimalDigit c = true) ds /\ horner 0 ds = n.
Proof.
  induction fuel as [|fuel IH]; intros n acc Hn;
    rewrite digitsOf_step;
    pose proof (Z.mod_pos_bound n 10 ltac:(lia)) as Hm;
    pose proof (Z.div_mod n 10 ltac:(lia)) as Hd;
    destruct (digitChar_digit (n mod 10) ltac:(lia)) as [Hdig Hval];
    assert (Z.of_N (code (digitChar (n mod 10))) - 48 = n mod 10) as Hcode
      by (rewrite code_digitChar by lia; lia);
    destruct (n / 10 =? 0) eqn:E.
  - apply Z.eqb_eq in E. exists [digitChar (n mod 10)].
    repeat split; [discriminate | repeat constructor; exact Hdig |].
    cbn. rewrite Hcode. lia.
  - apply Z.eqb_neq in E. exfalso. apply E.
    apply Z.div_small. change (2 ^ Z.of_nat 1) with 2 in Hn. lia.
  - apply Z.eqb_eq in E. exists [digitChar (n mod 10)].
    repeat split; [discriminate | repeat constructor; exact Hdig |].
    cbn. rewrite Hcode. lia.
  - apply Z.eqb_neq in E.
    assert (0 <= n / 10 < 2 ^ Z.of_nat (S fuel)) as Hq.
    { split; [apply Z.div_pos; lia|].
      rewrite (Nat2Z.inj_succ (S fuel)), Z.pow_succ_r in Hn by lia.
      apply Z.div_lt_upper_bound; lia. }
    destruct (IH (n / 10) (digitChar (n mod 10) :: acc) Hq)
      as [ds [Hds [Hne [Hall Hh]]]].
    exists (ds ++ [digitChar (n mod 10)]).
    repeat split.
    + rewrite Hds, <- app_assoc. reflexivity.
    + destruct ds; discriminate.
    + apply Forall_app. split; [exact Hall | repeat constructor; exact Hdig].
    + unfold horner in *. rewrite fold_left_app, Hh. cbn.
      rewrite Hcode. lia.
Qed.

Lemma numeral_spec : forall n,
  0 <= n ->
  numeral n <> [] /\ Forall (fun c => isDecimalDigit c = true) (numeral n) /\
  horner 0 (numeral n) = n.
Proof.
  intros n Hn. unfold numeral.
  destruct (digitsOf_spec (Z.to_nat (Z.log2 n)) n []) as [ds [E H]].
  - split; [exact Hn|].
    destruct (Z.eq_dec n 0) as [-> | Hz]; [reflexivity|].
    rewrite Nat2Z.inj_succ, Z2Nat.id by apply Z.log2_nonneg.
    apply Z.log2_spec. lia.
  - rewrite E, app_nil_r. exact H.
Qed.

Lemma digit_unit_facts : forall c,
  isDecimalDigit c = true ->
  isSpace c = false /\ (code c =? 45)%N = false /\ (code c =? 43)%N = false /\
  (code c =? 120)%N = false /\ (code c =? 88)%N = false.
Proof. intros c. every_unit c. Qed.

Lemma digitsPrefix_first : forall c ds,
  Forall (fun c => isDecimalDigit c = true) (c :: ds) ->
  digitsPrefix 10 None (c :: ds) = Some (horner 0 (c :: ds)).
Proof.
  intros c ds H. inversion H as [|? ? Hc Hds]; subst.
  destruct (digitValue_digit c Hc) as [Hv Hr].
  cbn [digitsPrefix]. rewrite Hv.
  assert ((Z.of_N (code c) - 48 <? 10) = true) as -> by (apply Z.ltb_lt; lia).
  now rewrite digitsPrefix_digits.
Qed.

Lemma parseInt_digits : forall ds,
  ds <> [] -> Forall (fun c => isDecimalDigit c = true) ds ->
  parseInt ds = Some (horner 0 ds).
Proof.
  intros [|c ds] Hne H; [contradiction|].
  pose proof (digitsPrefix_first c ds H) as Hp.
  inversion H as [|? ? Hc Hds]; subst.
  destruct (digit_unit_facts c Hc) as [Sp [Mi [Pl _]]].
  unfold parseInt. cbn [dropWhile]. rewrite Sp, Mi, Pl.
  destruct ds as [|x t].
  - rewrite Hp. f_equal. lia.
  - inversion Hds as [|? ? Hx _]; subst.
    destruct (digit_unit_facts x Hx) as [_ [_ [_ [X1 X2]]]].
    rewrite X1, X2, andb_false_r. rewrite Hp. f_equal. lia.
Qed.

(** X6: the decimal numeral of a number from 1 up to 2^53, the range in
    which the double that [parseInt] returns is the integer read, seeds
    exactly that number as the [page] or the [limit] parameter; the numeral
    of 0 seeds the defaults. *)
Theorem numeral_seeds_itself : forall n,
  (1 <= n <= 9007199254740992 ->
   page (QString (numeral n)) = n /\ limit (QString (numeral n)) = n)
  /\ page (QString (numeral 0)) = 1 /\ limit (QString (numeral 0)) = 20.
Proof.
  intros n. split; [|split; reflexivity].
  intros Hn. destruct (numeral_spec n ltac:(lia)) as [Hne [Hall Hh]].
  unfold page, limit, parseIntOr. cbn [queryText].
  rewrite (parseInt_digits (numeral n) Hne Hall), Hh.
  assert ((n =? 0) = false) as -> by (apply Z.eqb_neq; lia).
  split; reflexivity.
Qed.

Lemma numeral_seeds_itself_witness :
  page (QString (numeral 37)) = 37 /\ limit (QString (numeral 37)) = 37.
Proof. apply (proj1 (numeral_seeds_itself 37)). lia. Defined.

(* ================================================================== *)
(** * Price bounds and the unfiltered view                             *)
(* ================================================================== *)

Lemma fold_min_spec : forall l x,
  fold_left Z.min l x <= x /\
  Forall (fun y => fold_left Z.min l x <= y) l /\
  In (fold_left Z.min l x) (x :: l).
Proof.
  induction l as [|y l IH]; intros x; cbn [fold_left].
  - repeat split; [lia | constructor | now left].
  - destruct (IH (Z.min x y)) as [H1 [H2 H3]]. repeat split.
    + lia.
    + constructor; [lia | exact H2].
    + destruct H3 as [H3 | H3]; [|right; now right].
      destruct (Z.min_spec x y) as [[_ E] | [_ E]].
      * left. congruence.
      * right. left. congruence.
Qed.

Lemma fold_max_spec : forall l x,
  x <= fold_left Z.max l x /\
  Forall (fun y => y <= fold_left Z.max l x) l /\
  In (fold_left Z.max l x) (x :: l).
Proof.
  induction l as [|y l IH]; intros x; cbn [fold_left].
  - repeat split; [lia | constructor | now left].
  - destruct (IH (Z.max x y)) as [H1 [H2 H3]]. repeat split.
    + lia.
    + constructor; [lia | exact H2].
    + destruct H3 as [H3 | H3]; [|right; now right].
      destruct (Z.max_spec x y) as [[_ E] | [_ E]].
      * right. left. congruence.
      * left. congruence.
Qed.

Lemma arrayMap_In : forall (A B : Type) (f : nat -> A -> B) l i y,
  In y (arrayMap f i l) <->
  exists j x, nth_error l j = Some x /\ y = f (i + j)%nat x.
Proof.
  intros A B f. induction l as [|a l IH]; intros i y; cbn [arrayMap].
  - split; [intros [] | intros [[|j] [x [H _]]]; discriminate].
  - cbn [In]. rewrite IH. split.
    + intros [<- | [j [x [H1 H2]]]].
      * exists O, a. split; [reflexivity | now rewrite Nat.add_0_r].
      * exists (S j), x. split; [exact H1|].
        now replace (i + S j)%nat with (S i + j)%nat by lia.
    + intros [[|j] [x [H1 H2]]].
      * left. cbn in H1. injection H1 as <-.
        now rewrite Nat.add_0_r in H2.
      * right. exists j, x. split; [exact H1|].
        now replace (S i + j)%nat with (i + S j)%nat by lia.
Qed.

Lemma notNaN_In : forall l z, In z (notNaN l) <-> In (Fin z) l.
Proof.
  induction l as [|[y|] l IH]; intros z; cbn [notNaN In].
  - reflexivity.
  - rewrite IH. split; intros [H | H]; auto; left; congruence.
  - rewrite IH. split; [auto | intros [H | H]; [discriminate | exact H]].
Qed.

(** The numeric prices the bounds are taken over. *)
Lemma boundPrices_In : forall at_ ps z,
  In z (notNaN (arrayMap (fun i p => boundPrice (at_ i) p) 0 ps)) <->
  exists i p, nth_error ps i = Some p /\ price (at_ i) p = Fin z.
Proof.
  intros at_ ps z. rewrite notNaN_In, arrayMap_In.
  change boundPrice with price.
  split; intros [i [p [H1 H2]]]; exists i, p; split; auto.
Qed.

Lemma priceBounds_unfold : forall at_ ps,
  priceBounds at_ None None ps
  = match notNaN (arrayMap (fun i p => boundPrice (at_ i) p) 0 ps) with
    | [] => (0, 10000)
    | x :: t => (minOf x t, maxOf x t)
    end.
Proof.
  intros at_ [|p ps]; [reflexivity|]. unfold priceBounds.
  destruct (notNaN (arrayMap (fun i p0 => boundPrice (at_ i) p0) 0 (p :: ps)));
    reflexivity.
Qed.

Lemma priceBounds_computed : forall at_ ps,
  ((forall i p, nth_error ps i = Some p -> price (at_ i) p = NaN) ->
   priceBounds at_ None None ps = (0, 10000)) /\
  (forall i p z, nth_error ps i = Some p -> price (at_ i) p = Fin z ->
     fst (priceBounds at_ None None ps) <= z
     <= snd (priceBounds at_ None None ps)) /\
  (forall i p z, nth_error ps i = Some p -> price (at_ i) p = Fin z ->
     exists j q k r,
       nth_error ps j = Some q /\ nth_error ps k = Some r /\
       price (at_ j) q = Fin (fst (priceBounds at_ None None ps)) /\
       price (at_ k) r = Fin (snd (priceBounds at_ None None ps))).
Proof.
  intros at_ ps. rewrite priceBounds_unfold.
  pose proof (boundPrices_In at_ ps) as Hin.
  destruct (notNaN (arrayMap (fun i p => boundPrice (at_ i) p) 0 ps))
    as [|x t].
  - split; [reflexivity|].
    split; intros i p z Hi Hz; exfalso;
      apply (proj2 (Hin z)); now exists i, p.
  - destruct (fold_min_spec t x) as [L1 [L2 L3]].
    destruct (fold_max_spec t x) as [U1 [U2 U3]].
    rewrite Forall_forall in L2, U2. cbn [fst snd]. unfold minOf, maxOf.
    split; [|split].
    + intros Hnan. exfalso.
      destruct (proj1 (Hin x) (or_introl eq_refl)) as [i [p [Hi Hz]]].
      rewrite (Hnan i p Hi) in Hz. discriminate.
    + intros i p z Hi Hz.
      assert (In z (x :: t)) as [<- | Ht]
        by (apply Hin; now exists i, p).
      * lia.
      * specialize (L2 _ Ht). specialize (U2 _ Ht). lia.
    + intros _ _ _ _ _.
      apply Hin in L3 as [j [q [Hj Hq]]].
      apply Hin in U3 as [k [r [Hk Hr]]].
      exists j, q, k, r. now repeat split.
Qed.

(** X7: given both bounds, [minPrice] and [maxPrice] are the bounds given;
    otherwise they are computed from the effective prices of the products,
    each read at its own instant, leaving out those that are not numbers:
    0 and 10000 for an empty product list and for one without a numeric
    price; else every numeric price lies within the bounds and each bound
    is the price of a product. *)
Theorem priceBounds_are_bounds : forall at_ lo hi ps,
  match lo, hi with
  | Some a, Some b => priceBounds at_ lo hi ps = (a, b)
  | _, _ =>
      priceBounds at_ lo hi ps = priceBounds at_ None None ps /\
      (ps = [] -> priceBounds at_ lo hi ps = (0, 10000)) /\
      ((forall i p, nth_error ps i = Some p -> price (at_ i) p = NaN) ->
       priceBounds at_ lo hi ps = (0, 10000)) /\
      (forall i p z, nth_error ps i = Some p -> price (at_ i) p = Fin z ->
         fst (priceBounds at_ lo hi ps) <= z
         <= snd (priceBounds at_ lo hi ps)) /\
      (forall i p z, nth_error ps i = Some p -> price (at_ i) p = Fin z ->
         exists j q k r,
           nth_error ps j = Some q /\ nth_error ps k = Some r /\
           price (at_ j) q = Fin (fst (priceBounds at_ lo hi ps)) /\
           price (at_ k) r = Fin (snd (priceBounds at_ lo hi ps)))
  end.
Proof.
  intros at_ lo hi ps.
  destruct (priceBounds_computed at_ ps) as [Hn [Hb Ha]].
  destruct lo as [a|]; destruct hi as [b|]; [reflexivity | | |].
  - change (priceBounds at_ (Some a) None ps)
      with (priceBounds at_ None None ps).
    split; [reflexivity|]. split; [intros ->; reflexivity|].
    split; [exact Hn|]. split; assumption.
  - change (priceBounds at_ None (Some b) ps)
      with (priceBounds at_ None None ps).
    split; [reflexivity|]. split; [intros ->; reflexivity|].
    split; [exact Hn|]. split; assumption.
  - split; [reflexivity|]. split; [intros ->; reflexivity|].
    split; [exact Hn|]. split; assumption.
Qed.

Lemma priceBounds_are_bounds_witness :
  fst (priceBounds (fun _ => 5) (Some 10) None
         [sells "n" (Text NaN); sells "a" (Number (Fin 300));
          sells "b" (Text (Fin 120))])
  <= 300
  <= snd (priceBounds (fun _ => 5) (Some 10) None
            [sells "n" (Text NaN); sells "a" (Number (Fin 300));
             sells "b" (Text (Fin 120))]).
Proof.
  apply (proj1 (proj2 (proj2 (proj2 (priceBounds_are_bounds (fun _ => 5)
    (Some 10) None
    [sells "n" (Text NaN); sells "a" (Number (Fin 300));
     sells "b" (Text (Fin 120))])))) 1%nat
    (sells "a" (Number (Fin 300))) 300 eq_refl eq_refl).
Defined.

Lemma keep_unfiltered : forall now V p,
  pricePasses now V p -> trim (searchQuery V) = [] ->
  selectedCats V = [] -> selectedSizes V = [] ->
  keep now V p = true.
Proof.
  intros now V p Hp Hq Hc Hs. unfold keep.
  rewrite (proj2 (range_test now V p) Hp).
  now rewrite Hq, Hc, Hs.
Qed.

(** X8: after [clearAllFilters] with the computed price bounds, and in the
    initial view without a preselected category, the filter keeps the
    product list as it is and the filtered list holds every product of it
    exactly once, provided the filter reads for each product the price the
    bounds were computed from (a price that is not a number passes in any
    case); the page is 1 and the sort key is kept.  For every host sort. *)
Theorem cleared_view_shows_everything :
  forall (collator : Collator) (engine : Engine) (at_ : nat -> Z)
         (clock : Clock) (ps : list Product) (s : ViewState),
  let lo := fst (priceBounds at_ None None ps) in
  let hi := snd (priceBounds at_ None None ps) in
  let cleared := exec (clearAllFilters lo hi) s in
  (forall i p, nth_error ps i = Some p ->
     price (atFilter clock i) p = price (at_ i) p) ->
  kept clock cleared ps = ps /\
  Permutation ps (filteredAndSorted (pipeline clock cleared ps)) /\
  Permutation ps (filteredAndSorted (pipeline clock (initialView [] lo hi) ps)) /\
  currentPage cleared = 1 /\ sortBy cleared = sortBy s /\
  fst (clearAllFilters lo hi s) = str "/products".
Proof.
  intros collator engine at_ clock ps s lo hi cleared Hsame.
  destruct (priceBounds_computed at_ ps) as [_ [Hb _]].
  assert (forall V, priceRange V = (lo, hi) -> trim (searchQuery V) = [] ->
            selectedCats V = [] -> selectedSizes V = [] ->
            kept clock V ps = ps) as Hall.
  { intros V Hr Hq Hc Hs. unfold kept. apply arrayFilter_all.
    intros j p Hj. cbn [Nat.add]. apply keep_unfiltered; try assumption.
    intros z Hz. rewrite Hr. cbn [fst snd].
    rewrite (Hsame j p Hj) in Hz. now apply (Hb j p z). }
  assert (forall V, kept clock V ps = ps ->
            Permutation ps (filteredAndSorted (pipeline clock V ps))) as Hperm.
  { intros V E. unfold pipeline. cbn [filteredAndSorted]. fold (kept clock V ps).
    rewrite E. apply arraySort_permutes. }
  split; [now apply Hall|].
  split; [apply Hperm; now apply Hall|].
  split; [apply Hperm; now apply Hall|].
  repeat split.
Qed.

Lemma cleared_view_shows_everything_witness :
  kept (stopped 7)
    (exec (clearAllFilters 120 300) (plainView PriceLow 0 50))
    [sells "n" (Text NaN); sells "a" (Number (Fin 300));
     sells "b" (Text (Fin 120))]
  = [sells "n" (Text NaN); sells "a" (Number (Fin 300));
     sells "b" (Text (Fin 120))].
Proof.
  apply (cleared_view_shows_everything ordinalCollator binaryEngine
    (fun _ => 5) (stopped 7)
    [sells "n" (Text NaN); sells "a" (Number (Fin 300));
     sells "b" (Text (Fin 120))] (plainView PriceLow 0 50)).
  intros [|[|[|i]]] p H; cbn in H;
    [injection H as <-; reflexivity .. | destruct i; discriminate].
Defined.

(* ================================================================== *)
(** * The filter, exactly                                              *)
(* ================================================================== *)

Lemma existsb_arrIncludes_intro : forall selected ids x,
  In x ids -> In x selected ->
  existsb (fun y => arrIncludes selected y) ids = true.
Proof.
  intros selected ids x Hi Hs. apply existsb_exists. exists x.
  split; [assumption | now apply arrIncludes_In].
Qed.

Lemma keep_exactly : forall now V p,
  keep now V p = true <->
  pricePasses now V p /\
  (trim (searchQuery V) <> [] ->
   occursIn (toLowerCase (searchQuery V)) (searchIn p)) /\
  categoryClause V p /\ sizeClause V p.
Proof.
  intros now V p. split.
  - intros H. destruct (keep_clauses now V p H) as [H1 [_ [H3 H4]]].
    split; [exact H1|]. split; [|split; assumption].
    intros Hq. unfold keep in H.
    destruct (num_ltb (price now p) (Fin (fst (priceRange V)))
              || num_gtb (price now p) (Fin (snd (priceRange V))));
      [discriminate|].
    apply nonEmpty_true in Hq. rewrite Hq in H. cbn [andb] in H.
    destruct (includes (searchIn p) (toLowerCase (searchQuery V))) eqn:E;
      [now apply includes_spec | discriminate].
  - intros [Hp [Hq [Hc Hs]]]. unfold keep.
    rewrite (proj2 (range_test now V p) Hp).
    assert (nonEmpty (trim (searchQuery V))
            && negb (includes (searchIn p) (toLowerCase (searchQuery V)))
            = false) as ->.
    { destruct (nonEmpty (trim (searchQuery V))) eqn:E; [|reflexivity].
      apply nonEmpty_true in E. apply Hq, includes_spec in E.
      now rewrite E. }
    assert (nonEmpty (selectedCats V)
            && negb (existsb (fun id => arrIncludes (selectedCats V) id)
                             (prodCatIds p)) = false) as ->.
    { destruct (nonEmpty (selectedCats V)) eqn:E; [|reflexivity].
      apply nonEmpty_true in E. destruct (Hc E) as [id [Hi Hsel]].
      now rewrite (existsb_arrIncludes_intro _ _ id Hi Hsel). }
    assert (nonEmpty (selectedSizes V)
            && negb (existsb (fun sz => arrIncludes (selectedSizes V) sz)
                             (prodSizes p)) = false) as ->.
    { destruct (nonEmpty (selectedSizes V)) eqn:E; [|reflexivity].
      apply nonEmpty_true in E. destruct (Hs E) as [sz [Hi Hsel]].
      now rewrite (existsb_arrIncludes_intro _ _ sz Hi Hsel). }
    reflexivity.
Qed.

Lemma filtered_membership :
  forall (collator : Collator) (engine : Engine) (clock : Clock)
         (V : ViewState) (ps : list Product) p,
  In p (filteredAndSorted (pipeline clock V ps)) <->
  exists i, nth_error ps i = Some p /\ keep (atFilter clock i) V p = true.
Proof.
  intros collator engine clock V ps p. unfold pipeline.
  cbn [filteredAndSorted]. rewrite arraySort_In. apply kept_In.
Qed.

(** X9: a product is in the filtered list exactly when it stands in the
    product list at an index where the filter finds that its effective
    price, read at the instant of that test, is not a number outside the
    price range (it is within the range or not a number), that the
    lower-cased search text as typed (not trimmed) occurs in its search
    string unless the search text is blank, and that it meets the category
    and size clauses whenever a selection is made.  For every host sort
    and every clock. *)
Theorem filtered_exactly :
  forall (collator : Collator) (engine : Engine) (clock : Clock)
         (V : ViewState) (ps : list Product) p,
  In p (filteredAndSorted (pipeline clock V ps)) <->
  exists i,
    nth_error ps i = Some p /\ pricePasses (atFilter clock i) V p /\
    (trim (searchQuery V) <> [] ->
     occursIn (toLowerCase (searchQuery V)) (searchIn p)) /\
    categoryClause V p /\ sizeClause V p.
Proof.
  intros collator engine clock V ps p. rewrite filtered_membership.
  split; intros [i [Hi H]]; exists i; (split; [exact Hi|]);
    now apply keep_exactly.
Qed.

Lemma occursIn_app_l : forall q a b, occursIn q a -> occursIn q (a ++ b).
Proof.
  intros q a b [x [y H]]. exists x, (y ++ b). subst a.
  now rewrite <- !app_assoc.
Qed.

Lemma occursIn_app_r : forall q a b, occursIn q b -> occursIn q (a ++ b).
Proof.
  intros q a b [x [y H]]. exists (a ++ x), y. subst b.
  now rewrite <- !app_assoc.
Qed.

Lemma occursIn_refl : forall q, occursIn q q.
Proof. intros q. exists [], []. cbn. now rewrite app_nil_r. Qed.

Lemma join_element_occurs : forall sep l x,
  In (Some x) l -> occursIn x (join sep l).
Proof.
  intros sep. induction l as [|y l IH]; intros x H; [contradiction|].
  destruct l as [|z l].
  - destruct H as [-> | []]. cbn. apply occursIn_refl.
  - change (join sep (y :: z :: l))
      with (orEmpty y ++ sep ++ join sep (z :: l)).
    destruct H as [-> | H].
    + apply occursIn_app_l. cbn. apply occursIn_refl.
    + apply occursIn_app_r, occursIn_app_r. now apply IH.
Qed.

Lemma ownText_occurs : forall p text,
  ownText p text -> occursIn (toLowerCase text) (searchIn p).
Proof.
  intros p text H. unfold searchIn. apply join_element_occurs.
  destruct H as [H | [[cats [tag [Hc [Hin Ht]]]] | [vs [v [Hv [Hin Hc]]]]]].
  - left. now rewrite H.
  - right. apply in_or_app. left. rewrite Hc.
    apply in_map_iff. exists tag. split; [now rewrite Ht | assumption].
  - right. apply in_or_app. right. rewrite Hv.
    apply in_map_iff. exists v. split; [now rewrite Hc | assumption].
Qed.

(** X10: typing a product's name, the name of one of its category tags or
    the condition of one of its variants, in any letter case, never loses
    the product to the search: it is listed whenever its price, as the
    filter reads it, passes the range test and it meets the category and
    size selections.  For every host sort and every clock. *)
Theorem search_finds_own_text :
  forall (collator : Collator) (engine : Engine) (clock : Clock)
         (V : ViewState) (ps : list Product) i p text,
  nth_error ps i = Some p -> ownText p text ->
  toLowerCase (searchQuery V) = toLowerCase text ->
  pricePasses (atFilter clock i) V p -> categoryClause V p -> sizeClause V p ->
  In p (filteredAndSorted (pipeline clock V ps)).
Proof.
  intros collator engine clock V ps i p text Hin Hown Hq Hp Hc Hs.
  apply filtered_membership. exists i. split; [exact Hin|].
  apply keep_exactly. split; [exact Hp|]. split; [|split; assumption].
  intros _. rewrite Hq. now apply ownText_occurs.
Qed.

Lemma search_finds_own_text_witness :
  In {| prod_id := Some (str "p1"); prod_name := Some (str "Red Kurti");
        category_group := None; variantsId := None |}
     (filteredAndSorted
        (pipeline (stopped 0)
           {| sortBy := Newest; selectedCats := []; selectedSizes := [];
              searchQuery := str "RED kurti"; currentPage := 1;
              priceRange := (0, 10000) |}
           [{| prod_id := Some (str "p1"); prod_name := Some (str "Red Kurti");
               category_group := None; variantsId := None |}])).
Proof.
  apply (search_finds_own_text ordinalCollator binaryEngine (stopped 0)
    {| sortBy := Newest; selectedCats := []; selectedSizes := [];
       searchQuery := str "RED kurti"; currentPage := 1;
       priceRange := (0, 10000) |}
    [{| prod_id := Some (str "p1"); prod_name := Some (str "Red Kurti");
        category_group := None; variantsId := None |}]
    O
    {| prod_id := Some (str "p1"); prod_name := Some (str "Red Kurti");
       category_group := None; variantsId := None |}
    (str "Red Kurti")).
  - reflexivity.
  - left. reflexivity.
  - reflexivity.
  - intros z H. cbn in H. injection H as <-. cbn. lia.
  - intros H. now contradiction H.
  - intros H. now contradiction H.
Defined.

(* ================================================================== *)
(** * Pages                                                            *)
(* ================================================================== *)

Lemma windows_cover : forall (A : Type) (n m : nat) (l : list A),
  (length l <= m * n)%nat ->
  concat (map (fun k => firstn n (skipn (k * n) l)) (seq 0 m)) = l.
Proof.
  intros A n. induction m as [|m IH]; intros l H.
  - cbn in *. destruct l; [reflexivity | cbn in H; lia].
  - assert (length (skipn n l) <= m * n)%nat as Hl
      by (rewrite length_skipn; lia).
    specialize (IH (skipn n l) Hl).
    transitivity (firstn n l ++ skipn n l); [|apply firstn_skipn].
    cbn [seq map concat]. f_equal.
    rewrite <- seq_shift, map_map.
    etransitivity; [|exact IH].
    f_equal. apply map_ext. intros k.
    rewrite skipn_skipn. do 2 f_equal. lia.
Qed.

Lemma pipeline_onPage : forall (collator : Collator) (engine : Engine) (clock : Clock) V ps k,
  filteredAndSorted (pipeline clock (onPage k V) ps)
  = filteredAndSorted (pipeline clock V ps) /\
  totalPages (pipeline clock (onPage k V) ps) = totalPages (pipeline clock V ps) /\
  paginatedProducts (pipeline clock (onPage k V) ps)
  = slice (filteredAndSorted (pipeline clock V ps))
          ((k - 1) * itemsPerPage) ((k - 1) * itemsPerPage + itemsPerPage).
Proof. intros. repeat split. Qed.

Lemma totalPages_bounds : forall (collator : Collator) (engine : Engine) (clock : Clock) V ps,
  (totalPages (pipeline clock V ps) - 1) * 20
  < Z.of_nat (length (filteredAndSorted (pipeline clock V ps)))
  <= totalPages (pipeline clock V ps) * 20.
Proof.
  intros collator engine clock V ps.
  apply (ceilDiv_bounds
    (Z.of_nat (length (filteredAndSorted (pipeline clock V ps)))) 20 eq_refl).
Qed.

(** X11: the pages 1, 2, ..., [totalPages], one after the other, are the
    filtered list: every filtered product is on exactly one page, in
    order.  For every host sort and every clock. *)
Theorem pages_cover_filtered :
  forall (collator : Collator) (engine : Engine) (clock : Clock)
         (V : ViewState) (ps : list Product),
  concat (map (fun k => paginatedProducts
                          (pipeline clock (onPage (Z.of_nat k + 1) V) ps))
              (seq 0 (Z.to_nat (totalPages (pipeline clock V ps)))))
  = filteredAndSorted (pipeline clock V ps).
Proof.
  intros collator engine clock V ps.
  pose proof (totalPages_bounds collator engine clock V ps) as Hb.
  set (filtered := filteredAndSorted (pipeline clock V ps)) in *.
  set (pagesCount := totalPages (pipeline clock V ps)) in *.
  transitivity
    (concat (map (fun k => firstn 20 (skipn (k * 20) filtered))
                 (seq 0 (Z.to_nat pagesCount))));
    [|apply windows_cover; lia].
  f_equal. apply map_ext. intros k.
  destruct (pipeline_onPage collator engine clock V ps (Z.of_nat k + 1)) as [_ [_ ->]].
  fold filtered. unfold itemsPerPage.
  rewrite slice_window by lia.
  do 2 f_equal. lia.
Qed.

(** X12: every page from 1 to [totalPages] holds at least one product and
    every page before the last holds 20; there is no page exactly when
    nothing passes the filter, and more than one page (so that the
    pagination controls are shown) exactly when more than 20 products
    pass it.  For every host sort and every clock. *)
Theorem pages_are_filled :
  forall (collator : Collator) (engine : Engine) (clock : Clock)
         (V : ViewState) (ps : list Product),
  let view := pipeline clock V ps in
  (1 <= currentPage V <= totalPages view -> paginatedProducts view <> []) /\
  (1 <= currentPage V < totalPages view ->
   length (paginatedProducts view) = 20%nat) /\
  (totalPages view = 0 <-> filteredAndSorted view = []) /\
  (1 < totalPages view <-> (20 < length (filteredAndSorted view))%nat).
Proof.
  intros collator engine clock V ps view.
  pose proof (totalPages_bounds collator engine clock V ps) as Hb. fold view in Hb.
  assert (forall k, 1 <= k ->
    Z.of_nat (length (slice (filteredAndSorted view)
                        ((k - 1) * 20) ((k - 1) * 20 + 20)))
    = Z.min 20 (Z.max 0 (Z.of_nat (length (filteredAndSorted view))
                         - (k - 1) * 20))) as Hlen.
  { intros k Hk. apply length_slice_window; lia. }
  change (paginatedProducts view)
    with (slice (filteredAndSorted view) ((currentPage V - 1) * 20)
                ((currentPage V - 1) * 20 + 20)).
  split; [|split; [|split]].
  - intros Hk E. apply (f_equal (@length Product)) in E.
    specialize (Hlen (currentPage V) ltac:(lia)). cbn [length] in E. lia.
  - intros Hk. specialize (Hlen (currentPage V) ltac:(lia)). lia.
  - rewrite <- length_zero_iff_nil. lia.
  - lia.
Qed.

Lemma pages_are_filled_witness :
  paginatedProducts
    (pipeline (stopped 0)
       {| sortBy := Newest; selectedCats := []; selectedSizes := [];
          searchQuery := []; currentPage := 1; priceRange := (0, 10000) |}
       [{| prod_id := Some (str "p1"); prod_name := Some (str "Kurti");
           category_group := None; variantsId := None |}])
  <> [].
Proof.
  apply (pages_are_filled ordinalCollator binaryEngine (stopped 0)
    {| sortBy := Newest; selectedCats := []; selectedSizes := [];
       searchQuery := []; currentPage := 1; priceRange := (0, 10000) |}
    [{| prod_id := Some (str "p1"); prod_name := Some (str "Kurti");
        category_group := None; variantsId := None |}]).
  vm_compute. split; discriminate.
Defined.

(* ================================================================== *)
(** * Order of the sorted list                                         *)
(* ================================================================== *)

Lemma before_In : forall (A : Type) (l : list A) a b,
  before l a b -> In a l /\ In b l.
Proof.
  intros A l a b [l1 [l2 [l3 E]]]. subst l. split.
  - apply in_or_app. right. now left.
  - apply in_or_app. right. right. apply in_or_app. right. now left.
Qed.

Lemma settled_prices :
  forall (collator : Collator) clock (l : list Product) a b,
  settled clock l -> In a l -> In b l ->
  exists x y,
    getPrice (fst (atCompare clock 0)) a = Fin x /\
    getPrice (fst (atCompare clock 0)) b = Fin y /\
    keyOrder (fst (atCompare clock 0)) PriceLow a b = x - y /\
    keyOrder (fst (atCompare clock 0)) PriceHigh a b = y - x.
Proof.
  intros collator clock l a b H Ha Hb.
  destruct (H a Ha) as [x Hx]. destruct (H b Hb) as [y Hy].
  destruct (Hx O) as [Ex _]. destruct (Hy O) as [Ey _].
  exists x, y. unfold keyOrder. cbn [compareProducts fst snd].
  rewrite Ex, Ey. repeat split.
Qed.

(** X13: when every call of the comparator answers alike (always under
    [name] and [newest]; under the price keys when the effective prices of
    the filtered products are numbers and do not change while the sort
    runs), a product that stands before another in the sorted list never
    has to follow it under the sort key; under [price-low] its effective
    price is not higher, under [price-high] not lower.  For every host
    sort. *)
Theorem sorted_in_key_order :
  forall (collator : Collator) (engine : Engine) (clock : Clock)
         (V : ViewState) (ps : list Product) a b,
  let first := fst (atCompare clock 0) in
  comparable clock (sortBy V) (kept clock V ps) ->
  before (filteredAndSorted (pipeline clock V ps)) a b ->
  keyOrder first (sortBy V) a b <= 0 /\
  (sortBy V = PriceLow ->
   exists x y, getPrice first a = Fin x /\ getPrice first b = Fin y /\ x <= y) /\
  (sortBy V = PriceHigh ->
   exists x y, getPrice first a = Fin x /\ getPrice first b = Fin y /\ y <= x).
Proof.
  intros collator engine clock V ps a b first Hc Hab.
  destruct (pipeline_sorted collator engine clock V ps Hc) as [Ho _].
  assert (forall x, In x (filteredAndSorted (pipeline clock V ps)) ->
                    In x (kept clock V ps)) as Hincl.
  { intros x Hx. unfold pipeline in Hx. cbn [filteredAndSorted] in Hx.
    now apply arraySort_In in Hx. }
  assert (keyOrder first (sortBy V) a b <= 0) as H.
  { apply (ordered_before Product (keyOrder first (sortBy V))
             (kept clock V ps)
             (comparable_consistent collator clock (sortBy V) _ Hc)
             (filteredAndSorted (pipeline clock V ps)));
      [exact Hincl | exact Ho | exact Hab]. }
  split; [exact H|].
  destruct (before_In _ _ _ _ Hab) as [Ha Hb].
  apply Hincl in Ha, Hb.
  split; intros E; rewrite E in H, Hc; cbn [comparable] in Hc;
    destruct (settled_prices collator clock _ a b Hc Ha Hb)
      as [x [y [Ex [Ey [Elow Ehigh]]]]];
    exists x, y; fold first in Ex, Ey, Elow, Ehigh;
    (split; [exact Ex|]); (split; [exact Ey|]); lia.
Qed.

Lemma sorted_in_key_order_witness :
  exists x y,
    getPrice 0 {| prod_id := Some (str "p1"); prod_name := None;
                  category_group := None; variantsId := None |} = Fin x /\
    getPrice 0 (sells "p2" (Text (Fin 500))) = Fin y /\ x <= y.
Proof.
  refine (proj1 (proj2 (sorted_in_key_order ordinalCollator binaryEngine
    (stopped 0) (plainView PriceLow 0 10000)
    [sells "p2" (Text (Fin 500));
     {| prod_id := Some (str "p1"); prod_name := None;
        category_group := None; variantsId := None |}]
    {| prod_id := Some (str "p1"); prod_name := None;
       category_group := None; variantsId := None |}
    (sells "p2" (Text (Fin 500)))
    _ _)) eq_refl).
  - intros p Hp. vm_compute in Hp.
    repeat (destruct Hp as [<- | Hp];
            [eexists; intros k; split; reflexivity|]).
    contradiction.
  - exists [], [], []. vm_compute. reflexivity.
Defined.

Lemma comparable_same_elements :
  forall clock key (l l' : list Product),
  (forall x, In x l' -> In x l) ->
  comparable clock key l -> comparable clock key l'.
Proof.
  intros clock key l l' Hincl H.
  destruct key; cbn [comparable] in *; try exact I;
    intros p Hp; apply H, Hincl, Hp.
Qed.

(** X14: with a clock that stands still and a comparator that answers
    alike at every call (under the price keys: the effective prices of the
    filtered products are numbers), the pipeline changes nothing when it is
    run again on its own filtered list: that list is already filtered and
    in order, so the second run returns the same filtered list, page and
    page count.  For every host sort. *)
Theorem pipeline_idempotent :
  forall (collator : Collator) (engine : Engine) now (V : ViewState)
         (ps : list Product),
  comparable (stopped now) (sortBy V) (kept (stopped now) V ps) ->
  pipeline (stopped now) V (filteredAndSorted (pipeline (stopped now) V ps))
  = pipeline (stopped now) V ps.
Proof.
  intros collator engine now V ps Hc.
  set (clock := stopped now) in *.
  set (comparefn :=
         fun (k : nat) a b =>
           compareProducts (atCompare clock k) (sortBy V) a b).
  set (filtered := filteredAndSorted (pipeline clock V ps)).
  assert (filtered = arraySort comparefn (kept clock V ps)) as Hfs
    by reflexivity.
  assert (forall x, In x filtered -> In x (kept clock V ps)) as Hincl.
  { intros x Hx. rewrite Hfs in Hx. now apply arraySort_In in Hx. }
  destruct (pipeline_sorted collator engine clock V ps Hc) as [Ho _].
  fold filtered in Ho.
  assert (kept clock V filtered = filtered) as Ek.
  { unfold kept. apply arrayFilter_all. intros j p Hj.
    apply nth_error_In, Hincl, kept_In in Hj as [i [_ Hk]]. exact Hk. }
  assert (comparable clock (sortBy V) filtered) as Hc'
    by (eapply comparable_same_elements; [exact Hincl | exact Hc]).
  assert (arraySort comparefn filtered = filtered) as Es.
  { apply (arraySort_ordered_id engine Product comparefn
             (keyOrder (fst (atCompare clock 0)) (sortBy V)) filtered).
    - intros k a b Ha Hb.
      now apply (comparable_agrees collator clock (sortBy V) filtered).
    - now apply comparable_consistent.
    - exact Ho. }
  unfold pipeline. fold (kept clock V filtered). rewrite Ek.
  fold (kept clock V ps). fold comparefn. rewrite Es, Hfs. reflexivity.
Qed.

Lemma pipeline_idempotent_witness :
  pipeline (stopped 0) (plainView PriceHigh 0 10000)
    (filteredAndSorted
       (pipeline (stopped 0) (plainView PriceHigh 0 10000)
          [sells "a" (Number (Fin 100)); sells "b" (Text (Fin 300));
           sells "c" (Number (Fin 100))]))
  = pipeline (stopped 0) (plainView PriceHigh 0 10000)
      [sells "a" (Number (Fin 100)); sells "b" (Text (Fin 300));
       sells "c" (Number (Fin 100))].
Proof.
  apply (pipeline_idempotent ordinalCollator binaryEngine 0
    (plainView PriceHigh 0 10000)
    [sells "a" (Number (Fin 100)); sells "b" (Text (Fin 300));
     sells "c" (Number (Fin 100))]).
  intros p Hp. vm_compute in Hp.
  repeat (destruct Hp as [<- | Hp];
          [eexists; intros k; split; reflexivity|]).
  contradiction.
Defined.

(* ================================================================== *)
(** * Mutators together                                                *)
(* ================================================================== *)

(** X15: a mutator changes no parameter but its own and the page, and two
    mutators of different parameters give the same view in either order,
    also when they are given updating functions. *)
Theorem mutators_are_independent : forall (m1 m2 : Mutator) (s : ViewState),
  let s1 := exec (mutate m1) s in
  (target m1 <> PSort -> sortBy s1 = sortBy s) /\
  (target m1 <> PSearch -> searchQuery s1 = searchQuery s) /\
  (target m1 <> PCategory -> selectedCats s1 = selectedCats s) /\
  (target m1 <> PSize -> selectedSizes s1 = selectedSizes s) /\
  (target m1 <> PPriceRange -> priceRange s1 = priceRange s) /\
  (target m1 <> target m2 ->
   exec (mutate m1) (exec (mutate m2) s) = exec (mutate m2) (exec (mutate m1) s)).
Proof.
  intros m1 m2 s s1. unfold s1.
  repeat split;
    try (destruct m1 as [[]|[]|[]|[]|[]]; cbn; intros H;
         solve [reflexivity | now contradiction H]).
  destruct m1 as [[]|[]|[]|[]|[]]; destruct m2 as [[]|[]|[]|[]|[]]; cbn;
    intros H; solve [reflexivity | now contradiction H].
Qed.

Lemma mutators_are_independent_witness :
  exec (mutate (MSearch (Value (str "silk"))))
    (exec (mutate (MSize (Update (fun prev => str "XL" :: prev))))
       (initialView [] 0 10000))
  = exec (mutate (MSize (Update (fun prev => str "XL" :: prev))))
      (exec (mutate (MSearch (Value (str "silk"))))
         (initialView [] 0 10000)).
Proof.
  apply (mutators_are_independent
    (MSearch (Value (str "silk")))
    (MSize (Update (fun prev => str "XL" :: prev)))
    (initialView [] 0 10000)).
  discriminate.
Defined.

(* ================================================================== *)
(** * Selecting a category with its sub-categories                     *)
(* ================================================================== *)

(** X16: when the selected categories are the expansion of a category, a
    product tagged with that category or with any category below it meets
    the category clause, and is listed whenever its price, as the filter
    reads it, passes the range test, the search text is blank and no size
    is selected.  For every host sort and every clock. *)
Theorem subtree_selection_lists_tagged :
  forall (collator : Collator) (engine : Engine) (clock : Clock)
         (V : ViewState) (ps : list Product) c d p,
  selectedCats V = getAllDescendantIds c ->
  Reaches c d -> In (cat_id d) (prodCatIds p) ->
  categoryClause V p /\
  (forall i, nth_error ps i = Some p ->
   pricePasses (atFilter clock i) V p -> trim (searchQuery V) = [] ->
   selectedSizes V = [] -> In p (filteredAndSorted (pipeline clock V ps))).
Proof.
  intros collator engine clock V ps c d p Hsel Hr Htag.
  assert (categoryClause V p) as Hc.
  { intros _. exists (cat_id d). split; [exact Htag|].
    rewrite Hsel. apply In_getAllDescendantIds. now exists d. }
  split; [exact Hc|].
  intros i Hin Hp Hq Hs. apply filtered_membership.
  exists i. split; [exact Hin|]. apply keep_exactly.
  split; [exact Hp|]. split; [|split; [exact Hc|]].
  - intros Hne. contradiction.
  - intros Hne. contradiction.
Qed.

Lemma subtree_selection_lists_tagged_witness :
  categoryClause
    {| sortBy := Newest;
       selectedCats := getAllDescendantIds
         (mkCategory (str "root") (str "Women")
            (Some [mkCategory (str "a") (str "Dresses")
                     (Some [mkCategory (str "a1") (str "Maxi") None])]));
       selectedSizes := []; searchQuery := []; currentPage := 1;
       priceRange := (0, 10000) |}
    {| prod_id := Some (str "p1"); prod_name := Some (str "Gown");
       category_group := Some [{| tag_id := str "a1"; tag_name := None |}];
       variantsId := None |}.
Proof.
  apply (subtree_selection_lists_tagged ordinalCollator binaryEngine
    (stopped 0)
    {| sortBy := Newest;
       selectedCats := getAllDescendantIds
         (mkCategory (str "root") (str "Women")
            (Some [mkCategory (str "a") (str "Dresses")
                     (Some [mkCategory (str "a1") (str "Maxi") None])]));
       selectedSizes := []; searchQuery := []; currentPage := 1;
       priceRange := (0, 10000) |}
    []
    (mkCategory (str "root") (str "Women")
       (Some [mkCategory (str "a") (str "Dresses")
                (Some [mkCategory (str "a1") (str "Maxi") None])]))
    (mkCategory (str "a1") (str "Maxi") None)).
  - reflexivity.
  - eapply reaches_child; [left; reflexivity|].
    eapply reaches_child; [left; reflexivity|]. apply reaches_self.
  - left. reflexivity.
Defined.

(** X17: the initial category selection is empty for a missing or empty
    [category] parameter and for an id that no top-level category has, be
    it the id of a sub-category; for the id of a top-level category it is
    the expansion of the first such category and starts with that id. *)
Theorem initialSelectedCats_top_level : forall id categories,
  initialSelectedCats None categories = [] /\
  initialSelectedCats (Some []) categories = [] /\
  ((forall c, In c categories -> cat_id c <> id) ->
   initialSelectedCats (Some id) categories = []) /\
  (id <> [] -> (exists c, In c categories /\ cat_id c = id) ->
   exists c before after,
     categories = before ++ c :: after /\ cat_id c = id /\
     Forall (fun x => cat_id x <> id) before /\
     initialSelectedCats (Some id) categories = getAllDescendantIds c /\
     hd_error (initialSelectedCats (Some id) categories) = Some id).
Proof.
  intros id categories.
  pose proof (find_first (fun cat => streqb (cat_id cat) id) categories) as H.
  split; [reflexivity|]. split; [reflexivity|]. split.
  - intros Hno. destruct id as [|x id]; [reflexivity|].
    cbn [initialSelectedCats].
    destruct (find _ categories) as [c|]; [|reflexivity].
    destruct H as [b [a [Hl [Hc _]]]]. apply streqb_eq in Hc.
    exfalso. apply (Hno c); [|exact Hc].
    rewrite Hl. apply in_or_app. right. now left.
  - intros Hne [c0 [Hin0 Hid0]].
    destruct id as [|x id]; [contradiction|].
    cbn [initialSelectedCats].
    destruct (find _ categories) as [c|].
    + destruct H as [b [a [Hl [Hc Hb]]]]. apply streqb_eq in Hc.
      exists c, b, a. repeat split; try assumption.
      * eapply Forall_impl; [|exact Hb]. intros y Hy. now apply streqb_neq.
      * rewrite getAllDescendantIds_unfold. cbn. now rewrite Hc.
    + rewrite Forall_forall in H. specialize (H c0 Hin0). cbn in H.
      rewrite Hid0, streqb_refl in H. discriminate.
Qed.

Lemma initialSelectedCats_top_level_witness :
  initialSelectedCats (Some (str "a1"))
    [mkCategory (str "root") (str "Women")
       (Some [mkCategory (str "a1") (str "Maxi") None])] = [].
Proof.
  apply (initialSelectedCats_top_level (str "a1")
    [mkCategory (str "root") (str "Women")
       (Some [mkCategory (str "a1") (str "Maxi") None])]).
  intros c [<- | []]. discriminate.
Defined.

(* ================================================================== *)
(** * The effect that leaves for the product page                      *)
(* ================================================================== *)

(** X18: the effect does not push the route in the initial view; sorting
    and changing the page never make it push; it pushes exactly when a size
    is selected, the search text is not empty, the price range differs from
    the bounds, or the number of selected categories differs from the
    initial number. *)
Theorem leaving_for_products : forall initialSelected lo hi (s : ViewState),
  leavesForProducts initialSelected lo hi (initialView initialSelected lo hi)
  = false /\
  (forall a, leavesForProducts initialSelected lo hi (exec (handleSortChange a) s)
             = leavesForProducts initialSelected lo hi s) /\
  (forall k, leavesForProducts initialSelected lo hi (onPage k s)
             = leavesForProducts initialSelected lo hi s) /\
  (leavesForProducts initialSelected lo hi s = true <->
   length (selectedCats s) <> length initialSelected \/
   selectedSizes s <> [] \/ searchQuery s <> [] \/
   priceRange s <> (lo, hi)).
Proof.
  intros sel lo hi s. split; [|split; [|split]].
  - unfold leavesForProducts, initialView. cbn.
    now rewrite Nat.eqb_refl, !Z.eqb_refl.
  - intros [v|f]; reflexivity.
  - intros k. reflexivity.
  - unfold leavesForProducts.
    rewrite !orb_true_iff, !negb_true_iff, Nat.eqb_neq, !Z.eqb_neq,
      Nat.ltb_lt, nonEmpty_true.
    destruct (priceRange s) as [a b]. cbn [fst snd].
    destruct (selectedSizes s) as [|z zs]; cbn [length].
    + split.
      * intros [[[[H | H] | H] | H] | H]; try (now auto); try lia;
          right; right; right; congruence.
      * intros [H | [H | [H | H]]]; try (now auto); try contradiction.
        destruct (Z.eq_dec a lo) as [-> | Ha]; [|now auto].
        right. intros ->. now apply H.
    + split; intros _; [right; left; discriminate|].
      left. left. left. right. lia.
Qed.

(* ================================================================== *)
(** * The page shown after a mutator                                   *)
(* ================================================================== *)

Lemma mutate_page : forall m s, currentPage (exec (mutate m) s) = 1.
Proof. intros [[]|[]|[]|[]|[]] s; reflexivity. Qed.

Lemma first_page : forall (collator : Collator) (engine : Engine) (clock : Clock) V ps,
  currentPage V = 1 ->
  paginatedProducts (pipeline clock V ps)
  = firstn 20 (filteredAndSorted (pipeline clock V ps)).
Proof.
  intros collator engine clock V ps H.
  change (paginatedProducts (pipeline clock V ps))
    with (slice (filteredAndSorted (pipeline clock V ps))
                ((currentPage V - 1) * 20) ((currentPage V - 1) * 20 + 20)).
  rewrite H. cbn [Z.sub Z.add Z.opp Z.pos_sub Z.mul].
  apply (slice_window Product (filteredAndSorted (pipeline clock V ps)) 0 20);
    lia.
Qed.

(** X19: after any mutator the products shown are the first 20 of the newly
    filtered and sorted list (all of them when there are at most 20), so a
    change of filter or sort never leaves the view on a page beyond the
    end.  For every host sort and every clock. *)
Theorem mutator_shows_first_page :
  forall (collator : Collator) (engine : Engine) (clock : Clock)
         (m : Mutator) (s : ViewState)
         (ps : list Product),
  let view := pipeline clock (exec (mutate m) s) ps in
  paginatedProducts view = firstn 20 (filteredAndSorted view) /\
  (filteredAndSorted view <> [] -> paginatedProducts view <> []).
Proof.
  intros collator engine clock m s ps view.
  assert (paginatedProducts view = firstn 20 (filteredAndSorted view)) as E
    by (apply first_page, mutate_page).
  split; [exact E|].
  intros Hne. rewrite E. destruct (filteredAndSorted view); [contradiction|].
  discriminate.
Qed.

Lemma mutator_shows_first_page_witness :
  paginatedProducts
    (pipeline (stopped 0)
       (exec (mutate (MSort (Value PriceLow)))
          {| sortBy := Newest; selectedCats := []; selectedSizes := [];
             searchQuery := []; currentPage := 7; priceRange := (0, 10000) |})
       [{| prod_id := Some (str "p1"); prod_name := Some (str "Kurti");
           category_group := None; variantsId := None |}])
  <> [].
Proof.
  apply (mutator_shows_first_page ordinalCollator binaryEngine (stopped 0)
    (MSort (Value PriceLow))
    {| sortBy := Newest; selectedCats := []; selectedSizes := [];
       searchQuery := []; currentPage := 7; priceRange := (0, 10000) |}
    [{| prod_id := Some (str "p1"); prod_name := Some (str "Kurti");
        category_group := None; variantsId := None |}]).
  vm_compute. discriminate.
Defined.
